(** * GameSingleUseWords: the phrase-completion pipeline of [main.py]

    A shallow embedding of the six pipeline stages (query builder, remote
    lookup, response cleaner, lemmatising aggregator, scorer, stopword
    annotator) together with the Python operations they rely on: list
    slicing with negative bounds, [str.join], string repetition,
    [urllib.parse.quote], insertion-ordered dictionaries, the stable
    [sorted] and the exceptions raised by [/] and by subscripting.

    Python strings are represented by their UTF-8 byte sequence, Python
    [int] by [Z].  The arithmetic on scores and weights, the NLTK corpora
    and the HTTP endpoint are interfaces (type classes) whose instances
    are supplied by the caller; the arithmetic of Python's [float] is the
    instance on binary64 numbers.  What a statement says about rounding,
    NaN or the range of floats is said of this instance, through the
    rational number a finite float stands for.

    The interactive entry point is covered through its parts: the three
    questions ([before_or_after], [how_many_more_words]) run on a console
    of input lines and written chunks, the stages behind the lookup
    ([rank_responses]) and the report ([present]) on typed phrase
    records.  How a decoded body that does not have the shape of a phrase
    list fails inside [collect_responses] is not modelled. *)

From Stdlib Require Import PrimFloat SpecFloat FloatOps FloatAxioms.
From Stdlib Require Import String Ascii List ZArith Bool Lia.
From Stdlib Require Import QArith Lqa Sorted Permutation.
From Stdlib Require DecimalString.
Import ListNotations.

Local Open Scope string_scope.
Local Open Scope Z_scope.

(** ** Exceptions and outcomes *)

(** The subclasses of [requests.exceptions.RequestException] that
    [requests.get] and [Response.json] raise. *)
Inductive requests_class : Type :=
  | ConnectionError
  | HTTPError
  | Timeout
  | TooManyRedirects
  | InvalidURL
  | JSONDecodeError.

Inductive exn : Type :=
  | ZeroDivisionError
  | KeyError (key : string)
  | TypeError (msg : string)
  | RequestException (cls : requests_class) (msg : string)
  | OtherError (cls : string) (msg : string).   (* any other class, by name *)

(** [str(e)] for the exceptions above. *)
Definition str_exn (e : exn) : string :=
  match e with
  | ZeroDivisionError => "division by zero"
  | KeyError key => "'" ++ key ++ "'"
  | TypeError msg => msg
  | RequestException _ msg => msg
  | OtherError _ msg => msg
  end.

Inductive outcome (A : Type) : Type :=
  | Ok (value : A)
  | Raise (e : exn).

Arguments Ok {A} value.
Arguments Raise {A} e.

Definition bind_outcome {A B : Type} (m : outcome A) (k : A -> outcome B)
  : outcome B :=
  match m with
  | Ok a => k a
  | Raise e => Raise e
  end.

(** A list comprehension whose element expression may raise: elements are
    evaluated left to right and the first exception aborts the whole
    comprehension. *)
Fixpoint comprehension {A B : Type} (f : A -> outcome B) (l : list A)
  : outcome (list B) :=
  match l with
  | [] => Ok []
  | x :: l' =>
      bind_outcome (f x) (fun y =>
      bind_outcome (comprehension f l') (fun ys => Ok (y :: ys)))
  end.

(** ** Python sequence operations *)

(** Clamping of a slice bound against a sequence of length [len], as
    [PySlice_AdjustIndices] does for step 1. *)
Definition adjust_index (len i : Z) : Z :=
  if i <? 0 then Z.max (i + len) 0 else Z.min i len.

(** [l[start:stop]]; [None] stands for an omitted bound. *)
Definition py_slice {A : Type} (l : list A) (start stop : option Z) : list A :=
  let len := Z.of_nat (length l) in
  let lo := match start with Some i => adjust_index len i | None => 0 end in
  let hi := match stop with Some j => adjust_index len j | None => len end in
  firstn (Z.to_nat (hi - lo)) (skipn (Z.to_nat lo) l).

(** [sep.join(parts)] *)
Definition join (sep : string) (parts : list string) : string :=
  String.concat sep parts.

(** [n * s] on a string: the empty string when [n <= 0]. *)
Definition str_mul (n : Z) (s : string) : string :=
  String.concat EmptyString (repeat s (Z.to_nat n)).

(** [x in l] on a list of strings. *)
Definition str_in (x : string) (l : list string) : bool :=
  existsb (String.eqb x) l.

(** ** urllib.parse.quote *)

Definition hex_digit (n : N) : ascii :=
  match n with
  | 0%N => "0" | 1%N => "1" | 2%N => "2" | 3%N => "3"
  | 4%N => "4" | 5%N => "5" | 6%N => "6" | 7%N => "7"
  | 8%N => "8" | 9%N => "9" | 10%N => "A" | 11%N => "B"
  | 12%N => "C" | 13%N => "D" | 14%N => "E" | _ => "F"
  end%char.

Definition in_range (lo hi : N) (c : ascii) : bool :=
  (lo <=? N_of_ascii c)%N && (N_of_ascii c <=? hi)%N.

(** The characters [quote] never escapes: letters, digits and [_.-~]. *)
Definition always_safe (c : ascii) : bool :=
  in_range 65 90 c || in_range 97 122 c || in_range 48 57 c
  || Ascii.eqb c "_" || Ascii.eqb c "." || Ascii.eqb c "-" || Ascii.eqb c "~".

Definition char_in (c : ascii) (s : string) : bool :=
  existsb (Ascii.eqb c) (list_ascii_of_string s).

Definition quote_byte (safe : string) (c : ascii) : string :=
  if always_safe c || char_in c safe then String c EmptyString
  else String "%" (String (hex_digit (N_of_ascii c / 16))
                  (String (hex_digit (N_of_ascii c mod 16)) EmptyString)).

Fixpoint quote_with (safe : string) (s : string) : string :=
  match s with
  | EmptyString => EmptyString
  | String c s' => quote_byte safe c ++ quote_with safe s'
  end.

(** [urllib.parse.quote(s)] with its default [safe='/']. *)
Definition quote (s : string) : string := quote_with "/" s.

Definition hex_value (c : ascii) : option N :=
  let n := N_of_ascii c in
  if in_range 48 57 c then Some (n - 48)%N
  else if in_range 65 70 c then Some (n - 55)%N
  else if in_range 97 102 c then Some (n - 87)%N
  else None.

(** [urllib.parse.unquote]: every [%XX] with two hexadecimal digits is
    replaced by the byte it denotes; a [%] not followed by two such
    digits is kept. *)
Fixpoint unquote (s : string) : string :=
  match s with
  | EmptyString => EmptyString
  | String c s' =>
      if Ascii.eqb c "%" then
        match s' with
        | String h (String l rest) =>
            match hex_value h, hex_value l with
            | Some a, Some b =>
                String (ascii_of_N (16 * a + b)) (unquote rest)
            | _, _ => String c (unquote s')
            end
        | _ => String c (unquote s')
        end
      else String c (unquote s')
  end.

(** ** Query builder *)

(** Lines 29-34 of [get_response_list]: the search pattern before it is
    escaped.  [position] is compared with ['before'] only. *)
Definition search_pattern (word position : string) (num_words : Z) : string :=
  if String.eqb position "before" then
    let bracket_words := join " " [str_mul num_words "?"] in
    bracket_words ++ " " ++ word
  else
    let bracket_words := join " " [str_mul num_words "?"] in
    word ++ " " ++ bracket_words.

Definition encoded_query (word position : string) (num_words : Z) : string :=
  quote (search_pattern word position num_words).

(** Lines 36-37: the parameter dictionary rendered as a query string. *)
Definition query_params (word position : string) (num_words : Z)
  : list (string * string) :=
  [("corpus", "eng-gb"); ("query", encoded_query word position num_words)].

Definition query_string (word position : string) (num_words : Z) : string :=
  join "&" (map (fun p => fst p ++ "=" ++ snd p)
                (query_params word position num_words)).

Definition request_url (word position : string) (num_words : Z) : string :=
  "https://api.phrasefinder.io/search?" ++ query_string word position num_words.


(** ** Numbers

    The scores ([sc]) and match counts ([mc]) of a phrase record are
    Python numbers.  The program adds them, divides them, multiplies by
    [100] and compares them; these operations form an interface. *)
Class Number (W : Type) : Type := {
  w_zero : W;                 (* [0], the start value of [sum], and [float()] *)
  w_hundred : W;              (* [100] *)
  w_milli : W;                (* [0.001] *)
  w_add : W -> W -> W;        (* [x + y] *)
  w_mul : W -> W -> W;        (* [x * y] *)
  w_quot : W -> W -> W;       (* [x / y] for a divisor that is not zero *)
  w_eqb : W -> W -> bool;     (* [x == y] *)
  w_ltb : W -> W -> bool      (* [x < y] *)
}.

(** [x > y] *)
Definition w_gtb {W : Type} `{Number W} (x y : W) : bool := w_ltb y x.

(** [x / y]: Python raises [ZeroDivisionError] exactly when the divisor
    compares equal to zero. *)
Definition truediv {W : Type} `{Number W} (x y : W) : outcome W :=
  if w_eqb y w_zero then Raise ZeroDivisionError else Ok (w_quot x y).

(** [sum(xs)]: left to right, starting from [0].  (From CPython 3.12 on
    [sum] compensates the rounding errors of floats, which brings its
    result closer to the exact sum; the value is the same whenever the
    additions are exact.) *)
Definition py_sum {W : Type} `{Number W} (xs : list W) : W :=
  fold_left w_add xs w_zero.

(** ** Linguistic resources (NLTK) *)
Class Lexicon : Type := {
  wd_words : list string;             (* [wd.words()] *)
  stopwords_english : list string;    (* [stopwords.words('english')] *)
  lemmatize : string -> string        (* [wordnet_lemmatizer.lemmatize] *)
}.

(** ** Decoded JSON bodies *)
#[warnings="-register-all"]
Inductive json (W : Type) : Type :=
  | JNull
  | JBool (b : bool)
  | JNum (x : W)
  | JStr (s : string)
  | JArr (items : list (json W))
  | JObj (members : list (string * json W)).

Arguments JNull {W}.
Arguments JBool {W} b.
Arguments JNum {W} x.
Arguments JStr {W} s.
Arguments JArr {W} items.
Arguments JObj {W} members.

Fixpoint dict_get {V : Type} (key : string) (d : list (string * V)) : option V :=
  match d with
  | [] => None
  | (k, v) :: d' => if String.eqb k key then Some v else dict_get key d'
  end.

(** [obj[key]] for a string [key]. *)
Definition getitem_str {W : Type} (obj : json W) (key : string)
  : outcome (json W) :=
  match obj with
  | JObj members =>
      match dict_get key members with
      | Some v => Ok v
      | None => Raise (KeyError key)
      end
  | JArr _ => Raise (TypeError "list indices must be integers or slices, not str")
  | JStr _ => Raise (TypeError "string indices must be integers")
  | _ => Raise (TypeError "object is not subscriptable")
  end.

(** ** The world of [get_response_list]: the log file and the network *)
Inductive level : Type := DEBUG | INFO | WARNING | ERROR.

Record log_record : Type := { levelname : level; message : string }.

Record world : Type := {
  debug_log : list log_record;   (* records written to debug.log, oldest first *)
  wire : list string             (* URLs of the GET requests issued, oldest first *)
}.

(** What the endpoint answers: [requests.get(url)] yields the response or
    raises, and so does [response.json()].  The libraries under both calls
    (urllib3, the charset detector) log on their own; line 11 of [main.py]
    sets the root logger to level DEBUG with the file debug.log, so
    whatever they log ends up there too. *)
Class Remote (W : Type) : Type := {
  requests_get : string -> outcome string;
  response_json : string -> outcome (json W);
  transport_log : string -> list log_record;  (* logged during [requests.get(url)] *)
  decode_log : string -> list log_record      (* logged during [response.json()] *)
}.

Definition M (A : Type) : Type := world -> outcome A * world.

Definition ret {A : Type} (a : A) : M A := fun w => (Ok a, w).

Definition bind {A B : Type} (m : M A) (k : A -> M B) : M B :=
  fun w => match m w with
           | (Ok a, w') => k a w'
           | (Raise e, w') => (Raise e, w')
           end.

Definition lift {A : Type} (o : outcome A) : M A := fun w => (o, w).

Notation "x <- m ;; k" := (bind m (fun x => k))
  (at level 61, m at next level, right associativity).

(** [requests.get(url)]: one request goes out, and the HTTP stack writes
    its records to the log. *)
Definition http_get {W : Type} `{Remote W} (url : string) : M string :=
  fun w => (requests_get url,
            {| debug_log := debug_log w ++ transport_log url;
               wire := wire w ++ [url] |}).

(** [response.json()] *)
Definition decode_json {W : Type} `{Remote W} (body : string) : M (json W) :=
  fun w => (response_json body,
            {| debug_log := debug_log w ++ decode_log body; wire := wire w |}).

(** [logging.error(msg)] under [basicConfig(level=logging.DEBUG)]. *)
Definition logging_error (msg : string) : M unit :=
  fun w => (Ok tt,
            {| debug_log := debug_log w ++ [{| levelname := ERROR; message := msg |}];
               wire := wire w |}).

Definition is_RequestException (e : exn) : bool :=
  match e with
  | RequestException _ _ => true
  | _ => false
  end.

(** [try: body  except <catches> as e: handler(e)  else: orelse(result)].
    An exception of another class, or one raised by [orelse], propagates. *)
Definition try_except_else {A B : Type} (body : M A) (catches : exn -> bool)
    (handler : exn -> M B) (orelse : A -> M B) : M B :=
  fun w => match body w with
           | (Ok a, w') => orelse a w'
           | (Raise e, w') =>
               if catches e then handler e w' else (Raise e, w')
           end.

(** ** Remote lookup: lines 36-46 of [get_response_list] *)
Definition get_response_list {W : Type} `{Remote W}
    (word position : string) (num_words : Z) : M (json W) :=
  let params := query_string word position num_words in
  try_except_else
    (response <- http_get ("https://api.phrasefinder.io/search?" ++ params) ;;
     decode_json response)
    is_RequestException
    (fun e => _ <- logging_error (str_exn e) ;; ret (JArr []))
    (fun response_json =>
       response_list <- lift (getitem_str response_json "phrases") ;;
       ret response_list).

(** ** Phrase records *)
Record token : Type := { tt : string }.

Record phrase (W : Type) : Type := {
  tks : list token;
  sc : W;
  mc : W
}.

Arguments tks {W} p.
Arguments sc {W} p.
Arguments mc {W} p.

Section Pipeline.

Context {W : Type} `{Number W} `{Lexicon}.

(** [is_word]; the argument may be [None]. *)
Definition is_word (word : option string) : bool :=
  match word with
  | None => false
  | Some w => if negb (str_in w wd_words) then false else true
  end.

(** [set(l)] as a duplicate-free list. *)
Definition py_set (l : list string) : list string := nodup string_dec l.

Definition is_not_stopword (word : string) : bool :=
  let stop_words := py_set stopwords_english in
  negb (str_in word stop_words).

(** Line 94 of [collect_responses]. *)
Definition answer_words (response : phrase W) (position : string)
    (num_words : Z) : list token :=
  if String.eqb position "after"
  then py_slice (tks response) (Some 1) None
  else py_slice (tks response) (Some (-1 - num_words)) (Some (-1)).

(** Line 95. *)
Definition answer (response : phrase W) (position : string)
    (num_words : Z) : string :=
  join " " (map tt (answer_words response position num_words)).

(** Line 96: the condition under which a response is appended. *)
Definition accepted (response : phrase W) (position : string)
    (num_words : Z) : bool :=
  w_gtb (sc response) w_milli
  && forallb (fun a => is_word (Some a))
             (map tt (answer_words response position num_words)).

(** One iteration of the loop of [collect_responses]. *)
Definition collect_step (position : string) (num_words : Z)
    (cleaned_responses : list (string * W)) (response : phrase W)
  : list (string * W) :=
  if accepted response position num_words
  then cleaned_responses ++ [(answer response position num_words, mc response)]
  else cleaned_responses.

Definition collect_responses (response_list : list (phrase W))
    (position : string) (num_words : Z) : list (string * W) :=
  fold_left (collect_step position num_words) response_list [].

(** What one accepted response adds to the result (used to state the
    properties of the loop). *)
Definition contribution (position : string) (num_words : Z)
    (response : phrase W) : list (string * W) :=
  if accepted response position num_words
  then [(answer response position num_words, mc response)]
  else [].

(** [d[k] += v] on a [defaultdict(float)], kept in insertion order. *)
Fixpoint defaultdict_iadd (d : list (string * W)) (k : string) (v : W)
  : list (string * W) :=
  match d with
  | [] => [(k, w_add w_zero v)]
  | (k', x) :: d' =>
      if String.eqb k' k then (k', w_add x v) :: d'
      else (k', x) :: defaultdict_iadd d' k v
  end.

(** Insertion that keeps a list descending by weight and puts the new
    pair in front of the pairs of equal weight. *)
Fixpoint insert_desc (x : string * W) (l : list (string * W))
  : list (string * W) :=
  match l with
  | [] => [x]
  | y :: l' =>
      if w_ltb (snd x) (snd y) then y :: insert_desc x l' else x :: l
  end.

(** [sorted(items, key=lambda x: x[1], reverse=True)]: the stable sort,
    largest weight first.  When no weight is NaN the comparisons form a
    strict weak order and every stable sort returns this list.  With a
    NaN among the weights the list Python returns depends on the runs and
    merges of its sort, which this insertion sort does not follow. *)
Definition sorted_by_weight_reverse (items : list (string * W))
  : list (string * W) :=
  fold_right insert_desc [] items.

(** [a] may stand in front of [b] in a list that is descending by
    weight: the weight of [a] is not smaller than that of [b]. *)
Definition not_below (a b : string * W) : Prop :=
  w_ltb (snd a) (snd b) = false.

Definition lemmatize_and_sum (words : list (string * W))
  : list (string * W) :=
  let lemmatized_lst :=
    map (fun word => (lemmatize (fst word), snd word)) words in
  let d :=
    fold_left (fun d kv => defaultdict_iadd d (fst kv) (snd kv))
              lemmatized_lst [] in
  sorted_by_weight_reverse d.

(** [sum(w[1] for w in words)] *)
Definition total_weight (words : list (string * W)) : W :=
  py_sum (map snd words).

Definition score_generator (words : list (string * W))
  : outcome (list (string * W)) :=
  let total_score := total_weight words in
  comprehension
    (fun w => bind_outcome (truediv (snd w) total_score)
                (fun q => Ok (fst w, w_mul q w_hundred)))
    words.

Definition add_stopword_result (scores : list (string * W))
  : list (string * W * bool) :=
  map (fun w => (fst w, snd w, is_not_stopword (fst w))) scores.

End Pipeline.

(** ** The behaviour the specification describes, for comparison *)

(** A run of [n] placeholder tokens separated by single spaces. *)
Definition placeholder_run (n : Z) : string :=
  join " " (repeat "?" (Z.to_nat n)).

(** The pattern of the specification: the run and the anchor word. *)
Definition spec_search_pattern (word position : string) (num_words : Z)
  : string :=
  if String.eqb position "before"
  then placeholder_run num_words ++ " " ++ word
  else word ++ " " ++ placeholder_run num_words.

(** The last [n] elements of a list (all of them if it is shorter). *)
Definition last_n {A : Type} (n : nat) (l : list A) : list A :=
  skipn (length l - n) l.

(** ** Instances used in the examples *)

(** IEEE 754 binary64 with rounding to nearest even: Python's [float]. *)
#[export] Instance float_Number : Number float := {|
  w_zero := 0%float;
  w_hundred := 100%float;
  w_milli := 0x1.0624dd2f1a9fcp-10%float;      (* the double written 0.001 *)
  w_add := PrimFloat.add;
  w_mul := PrimFloat.mul;
  w_quot := PrimFloat.div;
  w_eqb := PrimFloat.eqb;
  w_ltb := PrimFloat.ltb
|}.

(** [abs(x - y) <= tol] on floats. *)
Definition within (tol x y : float) : bool :=
  PrimFloat.leb (PrimFloat.abs (PrimFloat.sub x y)) tol.

(** The double written [1e-6]. *)
Definition micro : float := 0x1.0c6f7a0b5ed8dp-20%float.

(** The double written [1e308]. *)
Definition huge : float := 0x1.1ccf385ebc8ap+1023%float.

(** [2.0 ** 53]: from here on the doubles are two apart. *)
Definition two53 : float := 9007199254740992%float.

Definition demo_lexicon : Lexicon := {|
  wd_words := ["brown"; "fox"; "foxes"; "the"; "quick"; "dog"];
  stopwords_english := ["the"; "of"; "a"; "the"];
  lemmatize := fun s => if String.eqb s "foxes" then "fox" else s
|}.

(** What urllib3 logs when it opens the connection. *)
Definition connection_record : log_record :=
  {| levelname := DEBUG;
     message := "Starting new HTTPS connection (1): api.phrasefinder.io:443" |}.

(** An endpoint that cannot be reached. *)
Definition unreachable_remote : Remote float := {|
  requests_get := fun _ => Raise (RequestException ConnectionError "connection refused");
  response_json := fun _ => Raise (RequestException JSONDecodeError "no body");
  transport_log := fun _ => [connection_record];
  decode_log := fun _ => []
|}.

(** An endpoint that answers with a body that is not JSON. *)
Definition garbled_remote : Remote float := {|
  requests_get := fun _ => Ok "<html>";
  response_json := fun _ => Raise (RequestException JSONDecodeError "Expecting value");
  transport_log := fun _ => [connection_record];
  decode_log := fun _ => []
|}.

Definition demo_phrases_json : json float :=
  JArr [JObj [("tks", JArr [JObj [("tt", JStr "quick")]; JObj [("tt", JStr "fox")]]);
              ("sc", JNum 0.5%float); ("mc", JNum 10%float)]].

(** An endpoint that answers with one phrase. *)
Definition healthy_remote : Remote float := {|
  requests_get := fun _ => Ok "{...}";
  response_json := fun _ => Ok (JObj [("phrases", demo_phrases_json)]);
  transport_log := fun _ => [connection_record];
  decode_log := fun _ => []
|}.

(** An endpoint that answers with an error object. *)
Definition keyless_remote : Remote float := {|
  requests_get := fun _ => Ok "{...}";
  response_json := fun _ => Ok (JObj [("error", JStr "quota exceeded")]);
  transport_log := fun _ => [connection_record];
  decode_log := fun _ => []
|}.

(** An endpoint whose body is nested too deeply for the decoder:
    [json.loads] gives up with [RecursionError], which [requests] does
    not turn into its own [JSONDecodeError]. *)
Definition nested_remote : Remote float := {|
  requests_get := fun _ => Ok "[[[[...";
  response_json := fun _ =>
    Raise (OtherError "RecursionError" "maximum recursion depth exceeded");
  transport_log := fun _ => [connection_record];
  decode_log := fun _ => []
|}.

(** An endpoint whose client fails outside the [requests] hierarchy. *)
Definition broken_remote : Remote float := {|
  requests_get := fun _ => Raise (TypeError "unsupported operand");
  response_json := fun _ => Ok JNull;
  transport_log := fun _ => [connection_record];
  decode_log := fun _ => []
|}.

Definition tok (s : string) : token := {| tt := s |}.

Definition demo_record : phrase float :=
  {| tks := [tok "quick"; tok "brown"; tok "fox"];
     sc := 0.5%float; mc := 10%float |}.

(** A record whose score does not reach the threshold. *)
Definition faint_record : phrase float :=
  {| tks := [tok "quick"; tok "brown"; tok "dog"];
     sc := 0x1p-11%float; mc := 7%float |}.

Definition empty_world : world := {| debug_log := []; wire := [] |}.

(** ** The stages behind the lookup

    Lines 188-190 of [run_module]; [run_with_input] runs the same three
    calls (lines 177-179) with position [before] and one wildcard.

    The match counts are read in the arithmetic [W].  A count that the
    decoded body holds as a Python [int] is converted by the first
    addition, [0.0 + v]; the conversion of an [int] beyond the range of
    floats raises [OverflowError] there, and such counts are outside
    this function. *)
Definition rank_responses {W : Type} `{Number W} `{Lexicon}
    (response_list : list (phrase W)) (position : string) (num_words : Z)
  : outcome (list (string * W)) :=
  let responses := collect_responses response_list position num_words in
  let answer := lemmatize_and_sum responses in
  score_generator answer.

(** The weights of the pairs whose text has the lemma [k], in input
    order. *)
Definition weights_of_lemma {W : Type} `{Lexicon} (k : string)
    (words : list (string * W)) : list W :=
  map snd (filter (fun word => String.eqb (lemmatize (fst word)) k) words).

(** The dictionary [d] of [lemmatize_and_sum] before it is sorted. *)
Definition group_by_lemma {W : Type} `{Number W} `{Lexicon}
    (words : list (string * W)) : list (string * W) :=
  fold_left (fun d kv => defaultdict_iadd d (fst kv) (snd kv))
            (map (fun word => (lemmatize (fst word), snd word)) words) [].

(** The strings of [l] that are not in [seen], each once, in the order of
    their first occurrence. *)
Fixpoint first_occurrences (l seen : list string) : list string :=
  match l with
  | [] => []
  | x :: l' =>
      if str_in x seen then first_occurrences l' seen
      else x :: first_occurrences l' (x :: seen)
  end.

(** [a] and [b] weigh the same: neither is smaller. *)
Definition same_weight {W : Type} `{Number W} (a b : string * W) : bool :=
  negb (w_ltb (snd a) (snd b)) && negb (w_ltb (snd b) (snd a)).

(** ** The number a weight stands for

    Statements about rounding compare the result of an operation with
    the exact result.  A reading gives the rational number a weight
    stands for and tells whether it stands for one at all. *)
Class Reading (W : Type) : Type := {
  finite : W -> bool;     (* [math.isfinite(x)] *)
  value : W -> Q          (* the number [x] stands for, when it is finite *)
}.

(** The rational [m * 2^e]. *)
Definition magnitude (m : positive) (e : Z) : Q :=
  match e with
  | Z0 => inject_Z (Zpos m)
  | Zpos p => inject_Z (Zpos m * Z.pow_pos 2 p)
  | Zneg p => Zpos m # Pos.pow 2 p
  end.

(** A finite double is [(-1)^s * m * 2^e]; the zeros stand for [0].
    (Infinities and NaN stand for no number; [0] is returned.) *)
Definition float_value (x : float) : Q :=
  match Prim2SF x with
  | S754_finite s m e => if s then Qopp (magnitude m e) else magnitude m e
  | _ => 0%Q
  end.

Definition float_finite (x : float) : bool :=
  match Prim2SF x with
  | S754_zero _ | S754_finite _ _ _ => true
  | _ => false
  end.

#[export] Instance float_Reading : Reading float := {|
  finite := float_finite;
  value := float_value
|}.

(** [x == x], which only NaN fails. *)
Definition not_nan (x : float) : Prop := PrimFloat.eqb x x = true.

(** The sum of a list of rationals. *)
Definition qsum (l : list Q) : Q := fold_right Qplus 0%Q l.

(** The exact sum of the weights of a list of pairs. *)
Definition weight_sum {W : Type} `{Reading W} (l : list (string * W)) : Q :=
  qsum (map (fun kv => value (snd kv)) l).

(** *** Exact additions *)

(** [x + v] is computed without rounding: the result is finite and
    stands for the sum of what [x] and [v] stand for. *)
Definition adds_exactly {W : Type} `{Number W} `{Reading W} (x v : W) : Prop :=
  finite (w_add x v) = true /\ (value (w_add x v) == value x + value v)%Q.

(** The addition that [d[k] += v] performs is exact. *)
Fixpoint iadd_exact {W : Type} `{Number W} `{Reading W}
    (d : list (string * W)) (k : string) (v : W) : Prop :=
  match d with
  | [] => adds_exactly w_zero v
  | (k', x) :: d' =>
      if String.eqb k' k then adds_exactly x v else iadd_exact d' k v
  end.

(** Every addition of the loop [for k, v in lst: d[k] += v] is exact. *)
Fixpoint grouping_exact {W : Type} `{Number W} `{Reading W}
    (lst d : list (string * W)) : Prop :=
  match lst with
  | [] => True
  | kv :: lst' =>
      iadd_exact d (fst kv) (snd kv)
      /\ grouping_exact lst' (defaultdict_iadd d (fst kv) (snd kv))
  end.

(** Every addition of [sum(xs)], continued from [acc], is exact. *)
Fixpoint sum_exact {W : Type} `{Number W} `{Reading W}
    (xs : list W) (acc : W) : Prop :=
  match xs with
  | [] => True
  | x :: xs' => adds_exactly acc x /\ sum_exact xs' (w_add acc x)
  end.

(** *** Rounded operations *)

(** The unit roundoff of binary64, [2^-53]: the largest relative error
    of one correctly rounded operation whose result is a normal
    number. *)
Definition unit_roundoff : Q := 1 # 9007199254740992.

(** [x] is within relative error [2^-53] of [y]. *)
Definition near (x y : Q) : Prop :=
  ((1 - unit_roundoff) * y <= x /\ x <= (1 + unit_roundoff) * y)%Q.

(** The result [x] of an operation is finite and stands for a number
    within relative error [2^-53] of the exact result [y]. *)
Definition rounds_to {W : Type} `{Reading W} (x : W) (y : Q) : Prop :=
  finite x = true /\ near (value x) y.

(** Every addition of [sum(xs)], continued from [acc], neither
    overflows nor rounds by more than [2^-53]. *)
Fixpoint sum_accurate {W : Type} `{Number W} `{Reading W}
    (xs : list W) (acc : W) : Prop :=
  match xs with
  | [] => True
  | x :: xs' =>
      rounds_to (w_add acc x) (value acc + value x)
      /\ sum_accurate xs' (w_add acc x)
  end.

(** The operations [score_generator] performs on the weights [ws] are
    all accurate: the weights are finite and not negative; the additions
    of the total, the quotient of every weight by the total, its product
    with [100] and the additions of the percentages stay finite and
    within relative error [2^-53] of the exact result.  (The accuracy of
    a quotient [q = w / t] is written without division:
    [q * t] is near [w].) *)
Definition scoring_accurate {W : Type} `{Number W} `{Reading W}
    (ws : list W) : Prop :=
  let t := py_sum ws in
  Forall (fun w => finite w = true /\ (0 <= value w)%Q) ws
  /\ sum_accurate ws w_zero
  /\ Forall (fun w =>
       finite (w_quot w t) = true
       /\ near (value (w_quot w t) * value t) (value w)
       /\ rounds_to (w_mul (w_quot w t) w_hundred)
                    (value (w_quot w t) * 100)) ws
  /\ sum_accurate (map (fun w => w_mul (w_quot w t) w_hundred) ws) w_zero.

(** [q^n] *)
Fixpoint qpow (q : Q) (n : nat) : Q :=
  match n with
  | O => 1%Q
  | S n' => (q * qpow q n')%Q
  end.

(** ** Console *)

Definition newline : string := String (ascii_of_N 10) EmptyString.

Record console : Type := {
  stdin : list string;    (* the lines still to be read, without their newline *)
  stdout : list string    (* what has been written, oldest first *)
}.

Inductive console_exn : Type := EOFError | ValueError.

Inductive reply (A : Type) : Type :=
  | Got (a : A)
  | Failed (e : console_exn).

Arguments Got {A} a.
Arguments Failed {A} e.

(** [print(s)] *)
Definition print (s : string) (c : console) : console :=
  {| stdin := stdin c; stdout := stdout c ++ [s ++ newline] |}.

Definition lower_char (c : ascii) : ascii :=
  if in_range 65 90 c then ascii_of_N (N_of_ascii c + 32) else c.

(** [s.lower()] on the ASCII letters; the bytes of other characters are
    kept.  No other character lowers to [a] or [b], so the comparisons
    of [before_or_after] are those of Python. *)
Fixpoint lower (s : string) : string :=
  match s with
  | EmptyString => EmptyString
  | String c s' => String (lower_char c) (lower s')
  end.

Definition position_prompt : string := "Type B for before word, or A for after: ".

Definition invalid_message : string := "Invalid character, please try again: ".

(** The [while True] loop of [before_or_after]: every round writes the
    prompt and reads one line; [input] raises [EOFError] when no line is
    left. *)
Fixpoint before_or_after_loop (lines : list string) (out : list string)
  : reply string * console :=
  match lines with
  | [] => (Failed EOFError, {| stdin := []; stdout := out ++ [position_prompt] |})
  | line :: rest =>
      let word_type := lower line in
      if String.eqb word_type "b" then
        (Got "before", {| stdin := rest; stdout := out ++ [position_prompt] |})
      else if String.eqb word_type "a" then
        (Got "after", {| stdin := rest; stdout := out ++ [position_prompt] |})
      else
        before_or_after_loop rest
          (out ++ [position_prompt] ++ [invalid_message ++ newline])
  end.

Definition before_or_after (c : console) : reply string * console :=
  before_or_after_loop (stdin c) (stdout c).

(** [int(s)] on a string, [None] where Python raises [ValueError]. *)
Class Builtins : Type := {
  int_of_str : string -> option Z
}.

Definition count_prompt : string := "How many words in brackets: ".

Definition how_many_more_words `{Builtins} (c : console) : reply Z * console :=
  let out := (stdout c ++ [count_prompt])%list in
  match stdin c with
  | [] => (Failed EOFError, {| stdin := []; stdout := out |})
  | line :: rest =>
      match int_of_str line with
      | Some n => (Got n, {| stdin := rest; stdout := out |})
      | None => (Failed ValueError, {| stdin := rest; stdout := out |})
      end
  end.

(** [input(prompt)]: the prompt is written, one line is read. *)
Definition input (prompt : string) (c : console) : reply string * console :=
  match stdin c with
  | [] => (Failed EOFError, {| stdin := []; stdout := stdout c ++ [prompt] |})
  | line :: rest =>
      (Got line, {| stdin := rest; stdout := stdout c ++ [prompt] |})
  end.

Definition word_prompt : string := "Please input word: ".

(** Lines 184-186 of [run_module]: the three questions. *)
Definition run_module_inputs `{Builtins} (c : console)
  : reply (string * string * Z) * console :=
  match input word_prompt c with
  | (Failed e, c1) => (Failed e, c1)
  | (Got input_word, c1) =>
      match before_or_after c1 with
      | (Failed e, c2) => (Failed e, c2)
      | (Got list_position, c2) =>
          match how_many_more_words c2 with
          | (Failed e, c3) => (Failed e, c3)
          | (Got num_words, c3) =>
              (Got (input_word, list_position, num_words), c3)
          end
      end
  end.

(** [int(s)] on ASCII text: white space around the numeral is dropped,
    a sign may precede the digits, and single underscores may stand
    between digits.  (The digits and spaces of other scripts, which
    [int] accepts as well, are left out.) *)
Definition is_space (c : ascii) : bool :=
  in_range 9 13 c || in_range 28 32 c.

Fixpoint lstrip (s : string) : string :=
  match s with
  | EmptyString => EmptyString
  | String c s' => if is_space c then lstrip s' else s
  end.

Fixpoint rstrip (s : string) : string :=
  match s with
  | EmptyString => EmptyString
  | String c s' =>
      match rstrip s' with
      | EmptyString => if is_space c then EmptyString else String c EmptyString
      | rest => String c rest
      end
  end.

(** The value of a run of digits; [after_digit] tells whether the
    character before was a digit, as an underscore and the end require. *)
Fixpoint digits_value (s : string) (acc : Z) (after_digit : bool)
  : option Z :=
  match s with
  | EmptyString => if after_digit then Some acc else None
  | String c s' =>
      if in_range 48 57 c
      then digits_value s' (10 * acc + Z.of_N (N_of_ascii c - 48)) true
      else if Ascii.eqb c "_" && after_digit
      then digits_value s' acc false
      else None
  end.

Definition py_int (s : string) : option Z :=
  match rstrip (lstrip s) with
  | String "-" s' => option_map Z.opp (digits_value s' 0 false)
  | String "+" s' => digits_value s' 0 false
  | s' => digits_value s' 0 false
  end.

Definition decimal_builtins : Builtins := {| int_of_str := py_int |}.

(** ** Presentation: lines 191-193 of [run_module] *)

(** [f"{x:.2f}"] *)
Class Formatter (W : Type) : Type := {
  format_2f : W -> string
}.

Definition result_line {W : Type} `{Formatter W} (w : string * W * bool)
  : string :=
  "  " ++ fst (fst w) ++ " " ++ format_2f (snd (fst w)) ++ "%"
  ++ (if negb (snd w) then " STOPWORD" else EmptyString).

Definition present {W : Type} `{Lexicon} `{Formatter W}
    (score : list (string * W)) (c : console)
  : list (string * W * bool) * console :=
  let scores_with_result := add_stopword_result score in
  let results_str := map result_line scores_with_result in
  (scores_with_result, print (join newline results_str) c).

(** [f"{x:.2f}"] on a float: the decimal numeral with two places that
    is nearest to the exact value, ties to the even one. *)
Definition round_half_even (q : Q) : Z :=
  let n := Qnum q in
  let d := Zpos (Qden q) in
  let f := n / d in
  match 2 * (n mod d) ?= d with
  | Lt => f
  | Gt => f + 1
  | Eq => if Z.even f then f else f + 1
  end.

Definition digits (n : Z) : string :=
  DecimalString.NilZero.string_of_uint (N.to_uint (Z.to_N n)).

Definition two_digits (n : Z) : string :=
  if n <? 10 then "0" ++ digits n else digits n.

Definition format_2f_float (x : float) : string :=
  match Prim2SF x with
  | S754_nan => "nan"
  | S754_infinity s => if s then "-inf" else "inf"
  | S754_zero s => if s then "-0.00" else "0.00"
  | S754_finite s m e =>
      let h := round_half_even (magnitude m e * 100) in
      (if s then "-" else EmptyString)
      ++ digits (h / 100) ++ "." ++ two_digits (h mod 100)
  end.

#[export] Instance float_Formatter : Formatter float := {|
  format_2f := format_2f_float
|}.

(** A character that may occur in an escaped string. *)
Definition url_char (c : ascii) : Prop :=
  always_safe c = true \/ c = "/"%char \/ c = "%"%char.

(** The last character of a string. *)
Fixpoint last_char (s : string) : option ascii :=
  match s with
  | EmptyString => None
  | String c EmptyString => Some c
  | String _ s' => last_char s'
  end.

Fixpoint count_char (c : ascii) (s : string) : nat :=
  match s with
  | EmptyString => 0%nat
  | String c' s' => ((if Ascii.eqb c c' then 1 else 0) + count_char c s')%nat
  end.

(** * Properties *)

(** ** Query builder *)

Lemma hex_value_hex_digit (c : ascii) :
  hex_value (hex_digit (N_of_ascii c / 16)) = Some (N_of_ascii c / 16)%N
  /\ hex_value (hex_digit (N_of_ascii c mod 16)) = Some (N_of_ascii c mod 16)%N
  /\ ascii_of_N (16 * (N_of_ascii c / 16) + N_of_ascii c mod 16) = c.
Proof.
  destruct c as [[] [] [] [] [] [] [] []]; vm_compute; repeat split.
Qed.

Lemma unquote_quote_byte (c : ascii) (s : string) :
  unquote (quote_byte "/" c ++ s) = String c (unquote s).
Proof.
  unfold quote_byte.
  destruct (always_safe c || char_in c "/") eqn:Hsafe.
  - cbn [append unquote].
    destruct (Ascii.eqb c "%") eqn:Hpc; [| reflexivity].
    apply Ascii.eqb_eq in Hpc. subst c. discriminate Hsafe.
  - cbn [append unquote Ascii.eqb Bool.eqb].
    destruct (hex_value_hex_digit c) as (Hhi & Hlo & Hc).
    rewrite Hhi, Hlo, Hc. reflexivity.
Qed.

(** Unescaping what [quote] produced gives the string back. *)
Lemma unquote_quote (s : string) : unquote (quote s) = s.
Proof.
  unfold quote.
  induction s as [| c s IH]; [reflexivity |].
  cbn [quote_with]. rewrite unquote_quote_byte. now rewrite IH.
Qed.

(** The pattern the code builds: the question marks are adjacent, the
    singleton list given to [join] has nothing to separate. *)
Lemma search_pattern_before (word : string) (n : Z) :
  search_pattern word "before" n = str_mul n "?" ++ " " ++ word.
Proof. reflexivity. Qed.

Lemma search_pattern_after (word : string) (n : Z) :
  search_pattern word "after" n = word ++ " " ++ str_mul n "?".
Proof. reflexivity. Qed.

Lemma encoded_query_decodes (word position : string) (n : Z) :
  unquote (encoded_query word position n) = search_pattern word position n.
Proof. apply unquote_quote. Qed.

(** With at most one wildcard the code builds the pattern of the
    specification. *)
Lemma search_pattern_one (word position : string) :
  search_pattern word position 1 = spec_search_pattern word position 1
  /\ search_pattern word position 0 = spec_search_pattern word position 0.
Proof.
  unfold search_pattern, spec_search_pattern.
  destruct (String.eqb position "before"); split; reflexivity.
Qed.

(** From two wildcards on the pattern of the code differs from that of
    the specification, whatever the anchor word: its second character is
    a question mark where the specification has a space. *)
Lemma search_pattern_differs (word : string) (n : Z) :
  2 <= n ->
  search_pattern word "before" n <> spec_search_pattern word "before" n
  /\ str_mul n "?" <> placeholder_run n.
Proof.
  intros Hn.
  assert (Hk : exists k, Z.to_nat n = S (S k))
    by (exists (Z.to_nat n - 2)%nat; lia).
  destruct Hk as [k Hk].
  unfold search_pattern, spec_search_pattern, str_mul, placeholder_run, join.
  cbn [String.eqb Ascii.eqb Bool.eqb String.concat].
  rewrite Hk. cbn [repeat String.concat].
  split; destruct k; cbn; discriminate.
Qed.

(** C1: the query built for the anchor [cat], position [before] and two
    wildcards.  The escaped query decodes to [?? cat]: the two question
    marks are not separated by a space, whereas the pattern of the
    specification is [? ? cat]. *)
Theorem query_two_wildcards_not_separated :
  query_string "cat" "before" 2 = "corpus=eng-gb&query=%3F%3F%20cat"
  /\ unquote (encoded_query "cat" "before" 2) = "?? cat"
  /\ spec_search_pattern "cat" "before" 2 = "? ? cat"
  /\ search_pattern "cat" "before" 2 <> spec_search_pattern "cat" "before" 2
  /\ search_pattern "cat" "after" 2 <> spec_search_pattern "cat" "after" 2.
Proof.
  repeat split; try reflexivity; vm_compute; discriminate.
Qed.

(** ** Scorer *)

Section ScorerFacts.

Context {W : Type} `{Number W}.

Lemma score_generator_cons_zero (w : string * W) (words : list (string * W)) :
  w_eqb (total_weight (w :: words)) w_zero = true ->
  score_generator (w :: words) = Raise ZeroDivisionError.
Proof.
  intros Hz. unfold score_generator.
  cbn [comprehension]. unfold truediv. rewrite Hz. reflexivity.
Qed.

Lemma comprehension_total {A B : Type} (f : A -> B) (l : list A) :
  comprehension (fun a => Ok (f a)) l = Ok (map f l).
Proof.
  induction l as [| a l IH]; [reflexivity |].
  cbn [comprehension bind_outcome map]. now rewrite IH.
Qed.

Lemma comprehension_ext {A B : Type} (f g : A -> outcome B) (l : list A) :
  (forall a, f a = g a) -> comprehension f l = comprehension g l.
Proof.
  intros Hfg. induction l as [| a l IH]; [reflexivity |].
  cbn [comprehension]. now rewrite Hfg, IH.
Qed.

(** With a total that is not zero no division faults. *)
Lemma score_generator_nonzero (words : list (string * W)) :
  w_eqb (total_weight words) w_zero = false ->
  score_generator words =
    Ok (map (fun w => (fst w,
                       w_mul (w_quot (snd w) (total_weight words)) w_hundred))
            words).
Proof.
  intros Hnz. unfold score_generator.
  rewrite <- comprehension_total.
  apply comprehension_ext. intros a.
  unfold truediv. rewrite Hnz. reflexivity.
Qed.

End ScorerFacts.

(** C9: the scorer applied to the empty list returns the empty list.  The
    total of the empty list is the start value [0] of [sum], and a
    division by it would fault; but the division sits in the body of the
    comprehension, which has no element to run on, so none is evaluated
    and the outcome is the same for every arithmetic. *)
Theorem score_generator_nil (W : Type) (N : Number W) :
  total_weight (@nil (string * W)) = w_zero
  /\ score_generator (@nil (string * W)) = Ok []
  /\ (w_eqb w_zero w_zero = true ->
      forall x : W,
        truediv x (total_weight (@nil (string * W))) = Raise ZeroDivisionError).
Proof.
  repeat split.
  intros Hzero x. unfold truediv.
  change (total_weight (@nil (string * W))) with (@w_zero W N).
  now rewrite Hzero.
Qed.

(** C2, as stated, fails: the empty list has total weight [0] and the
    scorer returns normally on it. *)
Lemma zero_total_does_not_always_raise :
  ~ (forall words : list (string * float),
        w_eqb (total_weight words) w_zero = true ->
        score_generator words = Raise ZeroDivisionError).
Proof.
  intros Hall. specialize (Hall [] eq_refl). discriminate Hall.
Qed.

(** C2, amended: on every non-empty list whose total weight is [0] the
    scorer raises [ZeroDivisionError]; nothing guards the division. *)
Theorem score_generator_zero_total_raises (W : Type) (N : Number W)
    (words : list (string * W)) :
  words <> [] ->
  w_eqb (total_weight words) w_zero = true ->
  score_generator words = Raise ZeroDivisionError.
Proof.
  intros Hne Hz. destruct words as [| w words]; [congruence |].
  now apply score_generator_cons_zero.
Qed.

Lemma score_generator_zero_total_raises_witness :
  score_generator [("fox", 0%float); ("dog", 0%float)]
  = Raise ZeroDivisionError.
Proof.
  apply score_generator_zero_total_raises.
  - discriminate.
  - vm_compute. reflexivity.
Defined.

(** ** Slices *)

Lemma py_slice_from_one {A : Type} (l : list A) :
  py_slice l (Some 1) None = skipn 1 l.
Proof.
  unfold py_slice, adjust_index. cbn [Z.ltb Z.compare].
  destruct l as [| a l]; [reflexivity |].
  replace (Z.min 1 (Z.of_nat (length (a :: l)))) with 1
    by (cbn [length]; lia).
  replace (Z.to_nat (Z.of_nat (length (a :: l)) - 1)) with (length l)
    by (cbn [length]; lia).
  cbn [Z.to_nat Pos.to_nat Pos.iter_op Nat.add skipn].
  apply firstn_all.
Qed.

Lemma removelast_firstn_pred {A : Type} (l : list A) :
  removelast l = firstn (length l - 1) l.
Proof.
  rewrite removelast_firstn_len. f_equal. lia.
Qed.

(** [l[-1-n:-1]] is the last [n] elements of [l] without its final
    element. *)
Lemma py_slice_before_last {A : Type} (l : list A) (n : Z) :
  0 <= n ->
  py_slice l (Some (-1 - n)) (Some (-1)) = last_n (Z.to_nat n) (removelast l).
Proof.
  intros Hn. unfold py_slice, adjust_index, last_n.
  replace (-1 - n <? 0) with true by (symmetry; apply Z.ltb_lt; lia).
  replace (-1 <? 0) with true by reflexivity.
  rewrite removelast_firstn_pred.
  set (len := length l).
  assert (Hlen : length (firstn (len - 1) l) = (len - 1)%nat)
    by (rewrite length_firstn; subst len; lia).
  rewrite Hlen.
  set (k := (len - 1 - Z.to_nat n)%nat).
  replace (Z.to_nat (Z.max (-1 - n + Z.of_nat len) 0)) with k by lia.
  replace (Z.to_nat (Z.max (-1 + Z.of_nat len) 0
                     - Z.max (-1 - n + Z.of_nat len) 0))
    with (len - 1 - k)%nat by lia.
  rewrite skipn_firstn_comm. reflexivity.
Qed.

Lemma py_slice_empty_range {A : Type} (l : list A) (i : Z) :
  py_slice l (Some i) (Some i) = [].
Proof.
  unfold py_slice. now rewrite Z.sub_diag.
Qed.

(** ** Response cleaner *)

Section CleanerFacts.

Context {W : Type} `{Number W} `{Lexicon}.

Lemma collect_fold (position : string) (n : Z)
    (l : list (phrase W)) (acc : list (string * W)) :
  fold_left (collect_step position n) l acc
  = (acc ++ flat_map (contribution position n) l)%list.
Proof.
  revert acc. induction l as [| r l IH]; intros acc; cbn [fold_left flat_map].
  - now rewrite app_nil_r.
  - rewrite IH. unfold collect_step, contribution.
    destruct (accepted r position n).
    + now rewrite <- app_assoc.
    + reflexivity.
Qed.

Lemma collect_responses_flat_map (position : string) (n : Z)
    (l : list (phrase W)) :
  collect_responses l position n = flat_map (contribution position n) l.
Proof. unfold collect_responses. now rewrite collect_fold. Qed.

Lemma collect_responses_app (position : string) (n : Z)
    (l1 l2 : list (phrase W)) :
  collect_responses (l1 ++ l2) position n
  = (collect_responses l1 position n ++ collect_responses l2 position n)%list.
Proof. rewrite !collect_responses_flat_map. apply flat_map_app. Qed.

Lemma str_in_In (x : string) (l : list string) :
  str_in x l = true <-> In x l.
Proof.
  unfold str_in. rewrite existsb_exists. split.
  - intros (y & Hy & Heq). apply String.eqb_eq in Heq. now subst.
  - intros Hx. exists x. split; [assumption | apply String.eqb_refl].
Qed.

Lemma is_word_In (w : string) : is_word (Some w) = true <-> In w wd_words.
Proof.
  unfold is_word. rewrite <- str_in_In.
  destruct (str_in w wd_words); cbn; split; congruence.
Qed.

(** The loop condition, read as a proposition. *)
Lemma accepted_iff (r : phrase W) (position : string) (n : Z) :
  accepted r position n = true
  <-> w_gtb (sc r) w_milli = true
      /\ Forall (fun t => In t wd_words) (map tt (answer_words r position n)).
Proof.
  unfold accepted. rewrite andb_true_iff, forallb_forall, Forall_forall.
  split; intros [Hsc Hall]; split; try assumption;
    intros t Ht; apply is_word_In; now apply Hall.
Qed.

End CleanerFacts.

(** C3: a phrase record is kept if and only if its score exceeds [0.001]
    and the text of every extracted token is in the dictionary word list.
    A kept record contributes its candidate at its place, a record that is
    not kept contributes nothing; hence every emitted candidate comes from
    a record with score above [0.001] whose extracted tokens are all
    dictionary words. *)
Theorem collect_responses_keeps_iff (W : Type) (N : Number W) (L : Lexicon)
    (position : string) (n : Z) :
  (forall (earlier later : list (phrase W)) (r : phrase W),
      let kept :=
        w_gtb (sc r) w_milli = true
        /\ Forall (fun t => In t wd_words) (map tt (answer_words r position n)) in
      (kept ->
       collect_responses (earlier ++ r :: later) position n
       = (collect_responses earlier position n
          ++ (join " " (map tt (answer_words r position n)), mc r)
          :: collect_responses later position n)%list)
      /\ (~ kept ->
          collect_responses (earlier ++ r :: later) position n
          = (collect_responses earlier position n
             ++ collect_responses later position n)%list))
  /\ (forall (response_list : list (phrase W)) (candidate : string * W),
         In candidate (collect_responses response_list position n) ->
         exists r : phrase W,
           In r response_list
           /\ candidate = (join " " (map tt (answer_words r position n)), mc r)
           /\ w_gtb (sc r) w_milli = true
           /\ Forall (fun t => In t wd_words)
                     (map tt (answer_words r position n))).
Proof.
  split.
  - intros earlier later r kept. subst kept.
    rewrite collect_responses_app.
    change (r :: later) with ([r] ++ later)%list.
    rewrite collect_responses_app.
    rewrite (collect_responses_flat_map position n [r]).
    cbn [flat_map]. unfold contribution. rewrite app_nil_r.
    split; intros Hkept.
    + apply accepted_iff in Hkept. rewrite Hkept. reflexivity.
    + destruct (accepted r position n) eqn:Hacc.
      * exfalso. apply Hkept. now apply accepted_iff.
      * reflexivity.
  - intros response_list candidate Hin.
    rewrite collect_responses_flat_map in Hin.
    apply in_flat_map in Hin. destruct Hin as (r & Hr & Hc).
    unfold contribution in Hc.
    destruct (accepted r position n) eqn:Hacc; [| contradiction].
    destruct Hc as [Hc | []]. apply accepted_iff in Hacc.
    exists r. repeat split; try tauto. now symmetry.
Qed.

Lemma collect_responses_keeps_iff_witness :
  @collect_responses float float_Number demo_lexicon
    ([] ++ demo_record :: [faint_record]) "after" 2
  = (@collect_responses float float_Number demo_lexicon [] "after" 2
     ++ (join " " (map tt (answer_words demo_record "after" 2)), mc demo_record)
     :: @collect_responses float float_Number demo_lexicon [faint_record] "after" 2)%list.
Proof.
  apply (proj1 (collect_responses_keeps_iff float float_Number demo_lexicon "after" 2)
           [] [faint_record] demo_record).
  split.
  - vm_compute. reflexivity.
  - repeat constructor; cbn; tauto.
Defined.

(** C4: with position [after] the candidate tokens are the tokens from
    index 1 onward; with position [before] they are the last [n] tokens
    in front of the final token (all of them when fewer than [n] are
    there); the candidate text joins their texts with single spaces. *)
Theorem answer_words_selection (W : Type) (r : phrase W) (n : Z) :
  0 <= n ->
  answer_words r "after" n = skipn 1 (tks r)
  /\ answer_words r "before" n = last_n (Z.to_nat n) (removelast (tks r))
  /\ length (answer_words r "before" n)
     = Nat.min (Z.to_nat n) (length (tks r) - 1)
  /\ forall position : string,
       answer r position n = join " " (map tt (answer_words r position n)).
Proof.
  intros Hn.
  assert (Hbefore : answer_words r "before" n
                    = last_n (Z.to_nat n) (removelast (tks r)))
    by (unfold answer_words; cbn [String.eqb Ascii.eqb Bool.eqb];
        now apply py_slice_before_last).
  repeat split.
  - unfold answer_words. cbn [String.eqb Ascii.eqb Bool.eqb].
    apply py_slice_from_one.
  - exact Hbefore.
  - rewrite Hbefore. unfold last_n.
    rewrite length_skipn, removelast_firstn_pred, length_firstn. lia.
Qed.

Lemma answer_words_selection_witness :
  answer_words demo_record "after" 2 = skipn 1 (tks demo_record)
  /\ answer_words demo_record "before" 2
     = last_n (Z.to_nat 2) (removelast (tks demo_record))
  /\ length (answer_words demo_record "before" 2)
     = Nat.min (Z.to_nat 2) (length (tks demo_record) - 1)
  /\ forall position : string,
       answer demo_record position 2
       = join " " (map tt (answer_words demo_record position 2)).
Proof. apply answer_words_selection. lia. Defined.

(** C10: with position [before] and no wildcard the token slice is empty,
    the dictionary check holds vacuously, and every record whose score
    exceeds [0.001] yields the candidate with the empty text and the
    record's match count. *)
Theorem collect_responses_before_zero (W : Type) (N : Number W) (L : Lexicon)
    (response_list : list (phrase W)) :
  (forall r : phrase W, answer_words r "before" 0 = [])
  /\ collect_responses response_list "before" 0
     = map (fun r => (EmptyString, mc r))
           (filter (fun r => w_gtb (sc r) w_milli) response_list).
Proof.
  assert (Hempty : forall r : phrase W, answer_words r "before" 0 = [])
    by (intros r; unfold answer_words; cbn [String.eqb Ascii.eqb Bool.eqb];
        apply py_slice_empty_range).
  split; [exact Hempty |].
  rewrite collect_responses_flat_map.
  induction response_list as [| r l IH]; [reflexivity |].
  cbn [flat_map filter]. rewrite IH.
  unfold contribution, accepted, answer. rewrite Hempty.
  cbn [map forallb join String.concat]. rewrite andb_true_r.
  destruct (w_gtb (sc r) w_milli); reflexivity.
Qed.

(** ** Stopword annotator *)

Lemma is_not_stopword_false (L : Lexicon) (text : string) :
  is_not_stopword text = false <-> In text stopwords_english.
Proof.
  unfold is_not_stopword, py_set.
  rewrite negb_false_iff, str_in_In. apply nodup_In.
Qed.

Lemma add_stopword_result_length (W : Type) (L : Lexicon)
    (scores : list (string * W)) :
  length (add_stopword_result scores) = length scores.
Proof. apply length_map. Qed.

(** C7: the pair at each position is extended by a flag, and the flag is
    [false] if and only if the text is in the English stopword list. *)
Theorem add_stopword_result_flag (W : Type) (L : Lexicon)
    (scores : list (string * W)) (i : nat) (text : string) (pct : W) :
  nth_error scores i = Some (text, pct) ->
  exists flag : bool,
    nth_error (add_stopword_result scores) i = Some (text, pct, flag)
    /\ (flag = false <-> In text stopwords_english).
Proof.
  intros Hi. exists (is_not_stopword text). split.
  - unfold add_stopword_result. rewrite nth_error_map, Hi. reflexivity.
  - apply is_not_stopword_false.
Qed.

Lemma add_stopword_result_flag_witness :
  exists flag : bool,
    nth_error (@add_stopword_result float demo_lexicon
                 [("fox", 75%float); ("the", 25%float)]) 1
    = Some ("the", 25%float, flag)
    /\ (flag = false <-> In "the" (@stopwords_english demo_lexicon)).
Proof.
  apply (add_stopword_result_flag float demo_lexicon
           [("fox", 75%float); ("the", 25%float)] 1 "the" 25%float).
  reflexivity.
Defined.

(** ** Normalizer / aggregator *)

Section AggregatorFacts.

Context {W : Type} {N : Number W} {L : Lexicon}.

Lemma insert_desc_Forall (P : string * W -> Prop) (x : string * W)
    (l : list (string * W)) :
  Forall P (insert_desc x l) <-> P x /\ Forall P l.
Proof.
  induction l as [| y l IH]; cbn [insert_desc].
  - split; [intros HF; inversion HF; tauto | intros [Hx _]; auto].
  - destruct (w_ltb (snd x) (snd y)).
    + rewrite !Forall_cons_iff, IH. tauto.
    + rewrite !Forall_cons_iff. tauto.
Qed.

Lemma insert_desc_perm (x : string * W) (l : list (string * W)) :
  Permutation (insert_desc x l) (x :: l).
Proof.
  induction l as [| y l IH]; cbn [insert_desc]; [reflexivity |].
  destruct (w_ltb (snd x) (snd y)); [| reflexivity].
  rewrite IH. apply perm_swap.
Qed.

Lemma sorted_by_weight_reverse_perm (items : list (string * W)) :
  Permutation (sorted_by_weight_reverse items) items.
Proof.
  induction items as [| x items IH]; [reflexivity |].
  cbn [sorted_by_weight_reverse fold_right].
  rewrite insert_desc_perm. now apply perm_skip.
Qed.

(** Sorting and stability need two facts about [<] only: it is
    asymmetric, and [a >= b >= c] gives [a >= c] when the middle weight
    [b] can be compared (is not NaN). *)
Section Order.

Variable comparable : W -> Prop.

Hypothesis ltb_asym : forall a b : W, w_ltb a b = true -> w_ltb b a = false.

Hypothesis ltb_negtrans : forall a b c : W,
    comparable b ->
    w_ltb a b = false -> w_ltb b c = false -> w_ltb a c = false.

Lemma insert_desc_sorted (x : string * W) (l : list (string * W)) :
  Forall (fun y => comparable (snd y)) l ->
  StronglySorted not_below l -> StronglySorted not_below (insert_desc x l).
Proof.
  intros Hcmp Hsorted. revert Hcmp.
  induction Hsorted as [| y l Hl IH Hy]; intros Hcmp; cbn [insert_desc].
  - repeat constructor.
  - inversion Hcmp as [| ? ? Hcy Hcl]; subst.
    destruct (w_ltb (snd x) (snd y)) eqn:Hxy.
    + constructor; [now apply IH |].
      apply insert_desc_Forall. split; [| exact Hy].
      unfold not_below. now apply ltb_asym.
    + constructor; [now constructor |].
      constructor; [exact Hxy |].
      eapply Forall_impl; [| exact Hy].
      intros z Hz. unfold not_below in *. now apply ltb_negtrans with (snd y).
Qed.

Lemma sorted_by_weight_reverse_sorted (items : list (string * W)) :
  Forall (fun y => comparable (snd y)) items ->
  StronglySorted not_below (sorted_by_weight_reverse items).
Proof.
  induction 1 as [| x items Hx Hitems IH]; cbn.
  - constructor.
  - apply insert_desc_sorted; [| exact IH].
    eapply Permutation_Forall; [| exact Hitems].
    symmetry. apply sorted_by_weight_reverse_perm.
Qed.

Lemma filter_same_weight_insert (p x : string * W) (l : list (string * W)) :
  comparable (snd p) ->
  filter (same_weight p) (insert_desc x l) = filter (same_weight p) (x :: l).
Proof.
  intros Hp. induction l as [| y l IH]; [reflexivity |].
  cbn [insert_desc]. destruct (w_ltb (snd x) (snd y)) eqn:Hxy; [| reflexivity].
  cbn [filter]. rewrite IH. cbn [filter].
  destruct (same_weight p x) eqn:Hx, (same_weight p y) eqn:Hy; try reflexivity.
  exfalso. unfold same_weight in Hx, Hy.
  apply andb_true_iff in Hx, Hy.
  destruct Hx as [_ Hxp], Hy as [Hpy _].
  apply negb_true_iff in Hxp, Hpy.
  pose proof (ltb_negtrans _ _ _ Hp Hxp Hpy). congruence.
Qed.

Lemma sorted_by_weight_reverse_stable (p : string * W)
    (items : list (string * W)) :
  comparable (snd p) ->
  filter (same_weight p) (sorted_by_weight_reverse items)
  = filter (same_weight p) items.
Proof.
  intros Hp. induction items as [| x items IH]; [reflexivity |].
  cbn [sorted_by_weight_reverse fold_right].
  rewrite filter_same_weight_insert by exact Hp. cbn [filter].
  fold (sorted_by_weight_reverse items). now rewrite IH.
Qed.

End Order.

Lemma sorted_by_weight_reverse_fixed (l : list (string * W)) :
  StronglySorted not_below l -> sorted_by_weight_reverse l = l.
Proof.
  induction 1 as [| x l Hl IH Hx]; [reflexivity |].
  cbn [sorted_by_weight_reverse fold_right].
  fold (sorted_by_weight_reverse l). rewrite IH.
  destruct l as [| y l]; [reflexivity |].
  cbn [insert_desc]. inversion Hx as [| ? ? Hxy _]; subst.
  unfold not_below in Hxy. now rewrite Hxy.
Qed.

(** The exact sum of the weights is kept by every step of the
    aggregator whose additions are exact. *)
Section Sum.

Context {R : Reading W}.

Hypothesis zero_value : (value w_zero == 0)%Q.

Lemma qsum_perm (l l' : list Q) : Permutation l l' -> (qsum l == qsum l')%Q.
Proof.
  induction 1 as [| x l l' _ IH | x y l | l l' l'' _ IH1 _ IH2];
    cbn [qsum fold_right] in *.
  - reflexivity.
  - now rewrite IH.
  - lra.
  - now rewrite IH1.
Qed.

Lemma weight_sum_perm (l l' : list (string * W)) :
  Permutation l l' -> (weight_sum l == weight_sum l')%Q.
Proof.
  intros Hperm. unfold weight_sum. apply qsum_perm.
  now apply Permutation_map.
Qed.

Lemma weight_sum_cons (x : string * W) (l : list (string * W)) :
  (weight_sum (x :: l) == value (snd x) + weight_sum l)%Q.
Proof. reflexivity. Qed.

Lemma weight_sum_iadd (d : list (string * W)) (k : string) (v : W) :
  iadd_exact d k v ->
  (weight_sum (defaultdict_iadd d k v) == weight_sum d + value v)%Q.
Proof.
  induction d as [| [k' x] d IH]; cbn [iadd_exact defaultdict_iadd].
  - intros [_ Hadd]. rewrite weight_sum_cons. cbn [snd].
    rewrite Hadd, zero_value. unfold weight_sum. cbn [map qsum fold_right]. lra.
  - destruct (String.eqb k' k).
    + intros [_ Hadd]. rewrite !weight_sum_cons. cbn [snd].
      rewrite Hadd. lra.
    + intros Hexact. rewrite !weight_sum_cons, (IH Hexact). cbn [snd]. lra.
Qed.

Lemma weight_sum_grouped (lst d : list (string * W)) :
  grouping_exact lst d ->
  (weight_sum
     (fold_left (fun d kv => defaultdict_iadd d (fst kv) (snd kv)) lst d)
   == weight_sum d + weight_sum lst)%Q.
Proof.
  revert d. induction lst as [| kv lst IH]; intros d; cbn [grouping_exact fold_left].
  - intros _. unfold weight_sum at 3. cbn [map qsum fold_right]. lra.
  - intros [Hstep Hrest].
    rewrite (IH _ Hrest), (weight_sum_iadd _ _ _ Hstep), weight_sum_cons. lra.
Qed.

Lemma weight_sum_lemmatized (words : list (string * W)) :
  weight_sum (map (fun word => (lemmatize (fst word), snd word)) words)
  = weight_sum words.
Proof. unfold weight_sum. rewrite map_map. reflexivity. Qed.

Lemma weight_sum_lemmatize_and_sum (words : list (string * W)) :
  grouping_exact (map (fun word => (lemmatize (fst word), snd word)) words) [] ->
  (weight_sum (lemmatize_and_sum words) == weight_sum words)%Q.
Proof.
  intros Hexact. unfold lemmatize_and_sum.
  rewrite (weight_sum_perm _ _ (sorted_by_weight_reverse_perm _)).
  rewrite (weight_sum_grouped _ _ Hexact), weight_sum_lemmatized.
  unfold weight_sum at 1. cbn [map qsum fold_right]. lra.
Qed.

Lemma sum_exact_value (xs : list W) (acc : W) :
  sum_exact xs acc ->
  (value (fold_left w_add xs acc) == value acc + qsum (map value xs))%Q.
Proof.
  revert acc. induction xs as [| x xs IH]; intros acc; cbn [sum_exact fold_left].
  - intros _. cbn [map qsum fold_right]. lra.
  - intros [[_ Hadd] Hrest]. rewrite (IH _ Hrest), Hadd.
    change (qsum (map value (x :: xs))) with (value x + qsum (map value xs))%Q.
    lra.
Qed.

Lemma total_weight_value (l : list (string * W)) :
  sum_exact (map snd l) w_zero ->
  (value (total_weight l) == weight_sum l)%Q.
Proof.
  intros Hexact. unfold total_weight, py_sum.
  rewrite (sum_exact_value _ _ Hexact), zero_value, map_map.
  unfold weight_sum. lra.
Qed.

End Sum.

End AggregatorFacts.

(** *** Comparisons of floats *)

Ltac compare_cases :=
  repeat match goal with
  | H : context [Pos.compare_cont Eq ?a ?b] |- _ =>
      change (Pos.compare_cont Eq a b) with (Pos.compare a b) in H
  | |- context [Pos.compare_cont Eq ?a ?b] =>
      change (Pos.compare_cont Eq a b) with (Pos.compare a b)
  end;
  repeat match goal with
  | H : context [Z.compare ?a ?b] |- _ => destruct (Z.compare_spec a b)
  | |- context [Z.compare ?a ?b] => destruct (Z.compare_spec a b)
  | H : context [Pos.compare ?a ?b] |- _ => destruct (Pos.compare_spec a b)
  | |- context [Pos.compare ?a ?b] => destruct (Pos.compare_spec a b)
  end;
  cbn [CompOpp] in *; subst; try discriminate; try reflexivity; try lia.

Lemma SFltb_asym (a b : spec_float) :
  SFltb a b = true -> SFltb b a = false.
Proof.
  unfold SFltb, SFcompare.
  destruct a as [[] | [] | | [] ma ea], b as [[] | [] | | [] mb eb];
    try discriminate; try reflexivity; intros Hab; compare_cases.
Qed.

Lemma SFltb_negtrans (a b c : spec_float) :
  b <> S754_nan ->
  SFltb a b = false -> SFltb b c = false -> SFltb a c = false.
Proof.
  unfold SFltb, SFcompare. intros Hb.
  destruct a as [[] | [] | | [] ma ea], b as [[] | [] | | [] mb eb],
           c as [[] | [] | | [] mc ec];
    try discriminate; try reflexivity; try congruence;
    intros Hab Hbc; compare_cases.
Qed.

Lemma not_nan_spec (x : float) : not_nan x -> Prim2SF x <> S754_nan.
Proof.
  unfold not_nan. rewrite FloatAxioms.eqb_spec. intros H Hn. rewrite Hn in H.
  discriminate H.
Qed.

Lemma float_ltb_asym (a b : float) :
  w_ltb a b = true -> w_ltb b a = false.
Proof. cbn [w_ltb float_Number]. rewrite !FloatAxioms.ltb_spec. apply SFltb_asym. Qed.

Lemma float_ltb_negtrans (a b c : float) :
  not_nan b ->
  w_ltb a b = false -> w_ltb b c = false -> w_ltb a c = false.
Proof.
  intros Hb. cbn [w_ltb float_Number]. rewrite !FloatAxioms.ltb_spec.
  apply SFltb_negtrans. now apply not_nan_spec.
Qed.

Lemma float_zero_value : (value (w_zero (W := float)) == 0)%Q.
Proof. vm_compute. reflexivity. Qed.

(** C5: on floats the output of the aggregator is sorted by summed
    weight descending (no pair is followed by a heavier one) when no
    summed weight is NaN.  When every addition [d[k] += v] the function
    performs on the list is exact, the output weights add up to what the
    input weights add up to; and Python's [sum] returns the same number
    for both lists when its own additions are exact as well. *)
Theorem lemmatize_and_sum_sorted_total (L : Lexicon)
    (words : list (string * float)) :
  let output := lemmatize_and_sum words in
  (Forall (fun kv => not_nan (snd kv)) output ->
   StronglySorted not_below output)
  /\ (grouping_exact
        (map (fun word => (lemmatize (fst word), snd word)) words) [] ->
      (weight_sum output == weight_sum words)%Q
      /\ (sum_exact (map snd output) w_zero ->
          sum_exact (map snd words) w_zero ->
          (value (total_weight output) == value (total_weight words))%Q)).
Proof.
  intros output. split.
  - intros Hnan. subst output. unfold lemmatize_and_sum in *.
    apply (sorted_by_weight_reverse_sorted not_nan float_ltb_asym
             float_ltb_negtrans).
    eapply Permutation_Forall; [| exact Hnan].
    apply sorted_by_weight_reverse_perm.
  - intros Hexact.
    pose proof (weight_sum_lemmatize_and_sum float_zero_value words Hexact)
      as Hsum.
    split; [exact Hsum |].
    intros Hout Hin.
    rewrite (total_weight_value float_zero_value _ Hout).
    rewrite (total_weight_value float_zero_value _ Hin).
    exact Hsum.
Qed.

(** C5, as stated, fails on floats in two ways.  The additions that
    accumulate a group round: three candidates with lemma [fox] weigh
    [2**53 + 2] together, their group ends at [2**53]; the output
    weights sum to [2**53 + 2], while the five input weights are worth
    [2**53 + 4] and give [2**53] when summed left to right in floats.
    And a NaN among the weights defeats the sort: the list below is
    returned in input order, with [1.0] in front of [2.0]. *)
Lemma rounding_and_nan_break_aggregation :
  (let words :=
     [("fox", two53); ("foxes", 1%float); ("fox", 1%float);
      ("dog", 1%float); ("dog", 1%float)] in
   let output := @lemmatize_and_sum float float_Number demo_lexicon words in
   output = [("fox", two53); ("dog", 2%float)]
   /\ total_weight output = 9007199254740994%float
   /\ w_eqb (total_weight output) (total_weight words) = false
   /\ w_eqb (total_weight output) 9007199254740996%float = false
   /\ ~ (weight_sum output == weight_sum words)%Q)
  /\ (let words := [("fox", 1%float); ("dog", nan); ("the", 2%float)] in
      let output := @lemmatize_and_sum float float_Number demo_lexicon words in
      output = words
      /\ w_ltb 1%float 2%float = true
      /\ ~ StronglySorted not_below output).
Proof.
  split.
  - cbv zeta. repeat split; try (vm_compute; reflexivity).
    vm_compute. discriminate.
  - cbv zeta.
    assert (Hout : @lemmatize_and_sum float float_Number demo_lexicon
                     [("fox", 1%float); ("dog", nan); ("the", 2%float)]
                   = [("fox", 1%float); ("dog", nan); ("the", 2%float)])
      by (vm_compute; reflexivity).
    rewrite Hout. repeat split.
    intros Hsorted. inversion Hsorted as [| ? ? _ Hfirst]; subst.
    inversion Hfirst as [| ? ? _ Hrest]; subst.
    inversion Hrest as [| ? ? Hbad _]; subst.
    discriminate Hbad.
Qed.

Lemma lemmatize_and_sum_sorted_total_witness :
  let words := [("foxes", 3%float); ("dog", 5%float); ("fox", 4%float)] in
  let output := @lemmatize_and_sum float float_Number demo_lexicon words in
  output = [("fox", 7%float); ("dog", 5%float)]
  /\ StronglySorted not_below output
  /\ (weight_sum output == weight_sum words)%Q
  /\ (value (total_weight output) == value (total_weight words))%Q.
Proof.
  cbv zeta.
  pose proof (lemmatize_and_sum_sorted_total demo_lexicon
                [("foxes", 3%float); ("dog", 5%float); ("fox", 4%float)])
    as [Hsorted Hsum].
  split; [vm_compute; reflexivity |].
  split.
  - apply Hsorted. repeat constructor.
  - assert (Hexact : grouping_exact
              (map (fun word => (@lemmatize demo_lexicon (fst word), snd word))
                   [("foxes", 3%float); ("dog", 5%float); ("fox", 4%float)])
              []).
    { repeat split; vm_compute; reflexivity. }
    destruct (Hsum Hexact) as [Hweights Htotals].
    split; [exact Hweights |].
    apply Htotals; repeat split; vm_compute; reflexivity.
Defined.

(** ** Percentages *)

(** *** Arithmetic of the error bounds *)

Lemma scale_le (c a b : Q) : (0 <= c -> a <= b -> c * a <= c * b)%Q.
Proof. intros. nra. Qed.

Lemma qpow_nonneg (q : Q) (n : nat) : (0 <= q -> 0 <= qpow q n)%Q.
Proof. intros Hq. induction n as [| n IH]; cbn [qpow]; [lra | nra]. Qed.

Lemma qpow_pos (q : Q) (n : nat) : (0 < q -> 0 < qpow q n)%Q.
Proof. intros Hq. induction n as [| n IH]; cbn [qpow]; [lra | nra]. Qed.

Lemma qpow_add (q : Q) (n m : nat) :
  (qpow q (n + m) == qpow q n * qpow q m)%Q.
Proof.
  induction n as [| n IH]; cbn [qpow Nat.add]; [lra | rewrite IH; lra].
Qed.

(** Bernoulli's inequality. *)
Lemma bernoulli (x : Q) (n : nat) :
  (0 <= x -> x <= 1 -> 1 - inject_Z (Z.of_nat n) * x <= qpow (1 - x) n)%Q.
Proof.
  intros H0 H1. induction n as [| n IH]; cbn [qpow].
  - change (inject_Z (Z.of_nat 0)) with 0%Q. lra.
  - rewrite Nat2Z.inj_succ. unfold Z.succ. rewrite inject_Z_plus.
    pose proof (qpow_nonneg (1 - x) n ltac:(lra)).
    assert (0 <= inject_Z (Z.of_nat n))%Q.
    { change 0%Q with (inject_Z 0). rewrite <- Zle_Qle. lia. }
    change (inject_Z 1) with 1%Q.
    set (k := inject_Z (Z.of_nat n)) in *. set (P := qpow (1 - x) n) in *.
    assert (0 <= k * (x * x))%Q by (apply Qmult_le_0_compat; nra).
    assert ((1 - x) * (1 - k * x) <= (1 - x) * P)%Q by (apply scale_le; lra).
    lra.
Qed.

Lemma pow_product_le_one (x : Q) (n : nat) :
  (0 <= x -> x <= 1 -> qpow (1 + x) n * qpow (1 - x) n <= 1)%Q.
Proof.
  intros H0 H1. induction n as [| n IH]; cbn [qpow]; [lra |].
  pose proof (qpow_nonneg (1 + x) n ltac:(lra)).
  pose proof (qpow_nonneg (1 - x) n ltac:(lra)).
  assert (0 <= qpow (1 + x) n * qpow (1 - x) n)%Q by nra.
  nra.
Qed.

(** From the bounds on the total [T], on the percentages and on their
    sum [P] to the bounds on [P] alone. *)
Lemma tolerance_arith (A B a2 b2 S T Sp P d : Q) :
  (0 < A -> 0 < B -> A * B <= 1 ->
   0 <= a2 -> 0 <= b2 -> a2 * b2 <= 1 ->
   0 < T -> 0 <= Sp ->
   A * S <= T -> T <= B * S ->
   a2 * 100 * S <= Sp * T -> Sp * T <= b2 * 100 * S ->
   A * Sp <= P -> P <= B * Sp ->
   1 - d <= A * A * a2 ->
   100 * (1 - d) <= P /\ P * (1 - d) <= 100 /\ 0 <= P)%Q.
Proof.
  intros HA HB HAB Ha2 Hb2 Hab HT HSp HT1 HT2 Hp1 Hp2 HP1 HP2 Hd.
  assert (HS : (0 < S)%Q) by nra.
  assert (HP : (0 <= P)%Q) by nra.
  split; [| split; [| exact HP]].
  - assert (H1 : (A * (a2 * 100 * S) <= A * (Sp * T))%Q) by nra.
    assert (H2 : (A * Sp * T <= P * T)%Q) by nra.
    assert (H3 : (P * T <= P * (B * S))%Q) by nra.
    assert (H4 : (A * a2 * 100 * S <= P * B * S)%Q) by lra.
    assert (H5 : (A * a2 * 100 <= P * B)%Q).
    { apply Qnot_lt_le. intros Hc.
      assert (P * B * S < A * a2 * 100 * S)%Q by nra. lra. }
    assert (H6 : (A * (A * a2 * 100) <= A * (P * B))%Q) by nra.
    assert (H7 : (P * (A * B) <= P * 1)%Q) by nra.
    nra.
  - assert (H1 : (P * T <= B * Sp * T)%Q) by nra.
    assert (H2 : (B * (Sp * T) <= B * (b2 * 100 * S))%Q) by nra.
    assert (H3 : (P * (A * S) <= P * T)%Q) by nra.
    assert (H4 : (P * A * S <= B * b2 * 100 * S)%Q) by lra.
    assert (H5 : (P * A <= B * b2 * 100)%Q).
    { apply Qnot_lt_le. intros Hc.
      assert (B * b2 * 100 * S < P * A * S)%Q by nra. lra. }
    assert (H0 : (0 <= A * a2)%Q) by nra.
    pose proof (scale_le _ _ _ H0 H5) as H6.
    assert (H7 : ((A * B) * (a2 * b2) <= 1)%Q).
    { assert (0 <= A * B)%Q by nra.
      assert ((A * B) * (a2 * b2) <= (A * B) * 1)%Q by (apply scale_le; lra).
      lra. }
    pose proof (scale_le _ _ _ HP Hd) as H8.
    assert (H9 : (100 * ((A * B) * (a2 * b2)) <= 100)%Q) by lra.
    lra.
Qed.

Lemma unit_roundoff_range : (0 <= unit_roundoff /\ unit_roundoff <= 1)%Q.
Proof. unfold unit_roundoff. split; discriminate. Qed.

(** *** The rounding errors of the scorer *)

Section Accuracy.

Context {W : Type} {N : Number W} {R : Reading W}.

Lemma qsum_nonneg (l : list Q) :
  Forall (fun q => (0 <= q)%Q) l -> (0 <= qsum l)%Q.
Proof.
  induction 1 as [| q l Hq _ IH]; [discriminate |].
  change (qsum (q :: l)) with (q + qsum l)%Q. lra.
Qed.

(** A sum of [n] weights that are not negative, rounded at every
    addition, is within the factors [(1 - u)^n] and [(1 + u)^n] of the
    exact sum. *)
Lemma fold_add_bounds (xs : list W) :
  forall acc : W,
    (0 <= value acc)%Q ->
    Forall (fun w => (0 <= value w)%Q) xs ->
    sum_accurate xs acc ->
    let s := (value acc + qsum (map value xs))%Q in
    (qpow (1 - unit_roundoff) (length xs) * s
     <= value (fold_left w_add xs acc))%Q
    /\ (value (fold_left w_add xs acc)
        <= qpow (1 + unit_roundoff) (length xs) * s)%Q.
Proof.
  pose proof unit_roundoff_range as Hu.
  induction xs as [| x xs IH]; intros acc Hacc Hall Hsum s; subst s.
  - cbn [length qpow map qsum fold_right fold_left]. lra.
  - inversion Hall as [| ? ? Hx Hxs]; subst.
    destruct Hsum as [[_ [Hlo Hhi]] Hrest].
    cbn [length map fold_left].
    change (qsum (value x :: map value xs))
      with (value x + qsum (map value xs))%Q.
    assert (Hq : (0 <= qsum (map value xs))%Q).
    { apply qsum_nonneg. rewrite Forall_map. exact Hxs. }
    set (q := qsum (map value xs)) in *.
    set (a' := value (w_add acc x)) in *.
    assert (Ha' : (0 <= a')%Q) by nra.
    destruct (IH (w_add acc x) Ha' Hxs Hrest) as [IHlo IHhi].
    fold a' in IHlo, IHhi. fold q in IHlo, IHhi.
    cbn [qpow].
    pose proof (qpow_nonneg (1 - unit_roundoff) (length xs) ltac:(lra)) as HA.
    pose proof (qpow_nonneg (1 + unit_roundoff) (length xs) ltac:(lra)) as HB.
    set (A := qpow (1 - unit_roundoff) (length xs)) in *.
    set (B := qpow (1 + unit_roundoff) (length xs)) in *.
    set (r := value (fold_left w_add xs (w_add acc x))) in *.
    set (u := unit_roundoff) in *.
    split.
    + assert (H1 : ((1 - u) * (value acc + (value x + q)) <= a' + q)%Q) by nra.
      pose proof (scale_le _ _ _ HA H1). lra.
    + assert (H1 : (a' + q <= (1 + u) * (value acc + (value x + q)))%Q) by nra.
      pose proof (scale_le _ _ _ HB H1). lra.
Qed.

Lemma sum_accurate_finite (xs : list W) :
  forall acc : W,
    xs <> [] -> sum_accurate xs acc ->
    finite (fold_left w_add xs acc) = true.
Proof.
  induction xs as [| x xs IH]; intros acc Hne Hsum; [congruence |].
  destruct Hsum as [[Hfin _] Hrest].
  cbn [fold_left]. destruct xs as [| y xs]; [exact Hfin |].
  apply IH; [discriminate | exact Hrest].
Qed.

(** The percentages are not negative, and their exact sum times the
    total is within the factors [(1 - u)^2] and [(1 + u)^2] of [100]
    times the exact sum of the weights. *)
Lemma percent_values (t : W) (ws : list W) :
  (0 < value t)%Q ->
  Forall (fun w =>
    (0 <= value w)%Q
    /\ near (value (w_quot w t) * value t) (value w)
    /\ near (value (w_mul (w_quot w t) w_hundred))
            (value (w_quot w t) * 100)) ws ->
  let ps := map (fun w => w_mul (w_quot w t) w_hundred) ws in
  Forall (fun p => (0 <= value p)%Q) ps
  /\ ((1 - unit_roundoff) * (1 - unit_roundoff) * 100 * qsum (map value ws)
      <= qsum (map value ps) * value t)%Q
  /\ (qsum (map value ps) * value t
      <= (1 + unit_roundoff) * (1 + unit_roundoff) * 100
         * qsum (map value ws))%Q.
Proof.
  pose proof unit_roundoff_range as Hu.
  intros Ht Hall ps. subst ps.
  induction Hall as [| w ws (Hw & [Hq1 Hq2] & [Hp1 Hp2]) _ IH].
  - cbn [map qsum fold_right]. split; [constructor | lra].
  - destruct IH as (IHpos & IHlo & IHhi).
    cbn [map].
    change (qsum (value w :: map value ws))
      with (value w + qsum (map value ws))%Q.
    set (ps := map (fun w => w_mul (w_quot w t) w_hundred) ws) in *.
    change (qsum (value (w_mul (w_quot w t) w_hundred) :: map value ps))
      with (value (w_mul (w_quot w t) w_hundred) + qsum (map value ps))%Q.
    set (S := qsum (map value ws)) in *.
    set (Sp := qsum (map value ps)) in *.
    set (q := value (w_quot w t)) in *.
    set (p := value (w_mul (w_quot w t) w_hundred)) in *.
    set (T := value t) in *. set (v := value w) in *.
    set (u := unit_roundoff) in *.
    assert (Hq : (0 <= q)%Q).
    { apply Qnot_lt_le. intros Hneg. assert (q * T < 0)%Q by nra. nra. }
    assert (Hp : (0 <= p)%Q) by nra.
    assert (Hlo : ((1 - u) * (1 - u) * 100 * v <= p * T)%Q).
    { assert ((1 - u) * (q * 100) * T <= p * T)%Q by nra.
      assert ((1 - u) * 100 * ((1 - u) * v) <= (1 - u) * 100 * (q * T))%Q
        by (apply scale_le; lra).
      lra. }
    assert (Hhi : (p * T <= (1 + u) * (1 + u) * 100 * v)%Q).
    { assert (p * T <= (1 + u) * (q * 100) * T)%Q by nra.
      assert ((1 + u) * 100 * (q * T) <= (1 + u) * 100 * ((1 + u) * v))%Q
        by (apply scale_le; lra).
      lra. }
    split; [constructor; assumption |]. lra.
Qed.

(** The sum of the percentages of [n] weights is within
    [(2 n + 2) * 2^-53], relatively, of [100]. *)
Lemma percentages_bounds (ws : list W) :
  (value w_zero == 0)%Q ->
  (0 < value (py_sum ws))%Q ->
  scoring_accurate ws ->
  let d := (inject_Z (Z.of_nat (length ws + length ws + 2)) * unit_roundoff)%Q in
  let P :=
    value (py_sum (map (fun w => w_mul (w_quot w (py_sum ws)) w_hundred) ws)) in
  (100 * (1 - d) <= P /\ P * (1 - d) <= 100 /\ 0 <= P)%Q.
Proof.
  pose proof unit_roundoff_range as Hu.
  intros Hzero Ht (Hws & Hsum & Hops & Hpsum) d P. subst d P.
  cbv zeta in Hops, Hpsum.
  set (t := py_sum ws) in *.
  set (ps := map (fun w => w_mul (w_quot w t) w_hundred) ws) in *.
  assert (Hnonneg : Forall (fun w => (0 <= value w)%Q) ws).
  { eapply Forall_impl; [| exact Hws]. now intros w [_ Hw]. }
  assert (Hall : Forall (fun w =>
            (0 <= value w)%Q
            /\ near (value (w_quot w t) * value t) (value w)
            /\ near (value (w_mul (w_quot w t) w_hundred))
                    (value (w_quot w t) * 100)) ws).
  { apply Forall_forall. intros w Hin.
    pose proof (proj1 (Forall_forall _ _) Hws w Hin) as [_ Hw].
    pose proof (proj1 (Forall_forall _ _) Hops w Hin) as (_ & Hq & _ & Hp).
    auto. }
  destruct (percent_values t ws Ht Hall) as (Hpos & Hplo & Hphi).
  fold ps in Hpos, Hplo, Hphi.
  assert (H0 : (0 <= value w_zero)%Q) by lra.
  destruct (fold_add_bounds ws w_zero H0 Hnonneg Hsum) as [Htlo Hthi].
  destruct (fold_add_bounds ps w_zero H0 Hpos Hpsum) as [HPlo HPhi].
  cbv zeta in Htlo, Hthi, HPlo, HPhi.
  rewrite Hzero, Qplus_0_l in Htlo, Hthi, HPlo, HPhi.
  replace (length ps) with (length ws) in HPlo, HPhi
    by (unfold ps; now rewrite length_map).
  fold (py_sum ws) in Htlo, Hthi. fold t in Htlo, Hthi.
  fold (py_sum ps) in HPlo, HPhi.
  set (n := length ws) in *.
  pose proof (qpow_pos (1 - unit_roundoff) n) as HA.
  pose proof (qpow_pos (1 + unit_roundoff) n) as HB.
  pose proof (pow_product_le_one unit_roundoff n (proj1 Hu) (proj2 Hu)) as HAB.
  pose proof (bernoulli unit_roundoff (n + n + 2) (proj1 Hu) (proj2 Hu)) as Hbern.
  rewrite !qpow_add in Hbern. cbn [qpow] in Hbern.
  set (A := qpow (1 - unit_roundoff) n) in *.
  set (B := qpow (1 + unit_roundoff) n) in *.
  assert (Hden : (0 < 1 - unit_roundoff)%Q) by (unfold unit_roundoff; reflexivity).
  assert (Hnum : (0 < 1 + unit_roundoff)%Q) by (unfold unit_roundoff; reflexivity).
  apply (tolerance_arith A B
           ((1 - unit_roundoff) * (1 - unit_roundoff))
           ((1 + unit_roundoff) * (1 + unit_roundoff))
           (qsum (map value ws)) (value t) (qsum (map value ps))).
  - now apply HA.
  - now apply HB.
  - rewrite Qmult_comm. exact HAB.
  - nra.
  - nra.
  - unfold unit_roundoff. discriminate.
  - exact Ht.
  - now apply qsum_nonneg, Forall_map.
  - lra.
  - lra.
  - exact Hplo.
  - exact Hphi.
  - lra.
  - lra.
  - lra.
Qed.

End Accuracy.

(** *** Floats above zero *)

Lemma magnitude_pos (m : positive) (e : Z) : (0 < magnitude m e)%Q.
Proof.
  destruct e as [| p | p]; unfold magnitude.
  - reflexivity.
  - change 0%Q with (inject_Z 0). rewrite <- Zlt_Qlt.
    rewrite Z.pow_pos_fold.
    apply Z.mul_pos_pos; [lia | apply Z.pow_pos_nonneg; lia].
  - reflexivity.
Qed.

(** A float above [0.0] does not compare equal to it and, when it is
    finite, stands for a positive number. *)
Lemma float_above_zero (t : float) :
  w_gtb t w_zero = true ->
  w_eqb t w_zero = false
  /\ (finite t = true -> (0 < value t)%Q).
Proof.
  unfold w_gtb.
  cbn [w_ltb w_eqb w_zero float_Number finite value float_Reading].
  rewrite FloatAxioms.ltb_spec, FloatAxioms.eqb_spec.
  unfold float_finite, float_value.
  replace (Prim2SF 0) with (S754_zero false) by (vm_compute; reflexivity).
  destruct (Prim2SF t) as [[] | [] | | [] m e]; cbn; try discriminate;
    intros _; split; try reflexivity; try discriminate.
  intros _. apply magnitude_pos.
Qed.



Ltac by_computation :=
  repeat match goal with
  | |- _ /\ _ => split
  | |- Forall _ _ => constructor
  | |- True => exact I
  | |- rounds_to _ _ => unfold rounds_to
  | |- near _ _ => unfold near
  | |- adds_exactly _ _ => unfold adds_exactly
  | |- (_ <= _)%Q => apply Qle_bool_iff; vm_compute; reflexivity
  | |- (_ == _)%Q => apply Qeq_bool_iff; vm_compute; reflexivity
  | |- @eq bool _ _ => vm_compute; reflexivity
  end.


(** ** Remote lookup *)

Lemma request_url_query (word position : string) (n : Z) :
  request_url word position n
  = "https://api.phrasefinder.io/search?" ++ query_string word position n.
Proof. reflexivity. Qed.

(** C8, as stated, fails: a body nested too deeply makes the decoding fail
    with [RecursionError], which is no [RequestException]; the lookup
    then raises instead of returning the empty list, and logs nothing of
    its own. *)
Lemma parse_failure_can_escape :
  response_json (Remote := nested_remote) "[[[[..."
  = Raise (OtherError "RecursionError" "maximum recursion depth exceeded")
  /\ @get_response_list float nested_remote "cat" "before" 1 empty_world
     = (Raise (OtherError "RecursionError" "maximum recursion depth exceeded"),
        {| debug_log := [connection_record];
           wire := [request_url "cat" "before" 1] |})
  /\ fst (@get_response_list float nested_remote "cat" "before" 1 empty_world)
     <> Ok (JArr []).
Proof. repeat split. discriminate. Qed.

(** C8, amended: one GET request is issued.  If it fails with an exception
    of the [requests] hierarchy, or if decoding the body fails with one,
    the message of the failure is logged at level ERROR, behind what the
    libraries logged themselves, and the empty list is returned; nothing
    is raised and no second request goes out.  If both succeed the value
    under the key [phrases] of the decoded body is returned and the
    program logs nothing. *)
Theorem get_response_list_outcome (W : Type) (R : Remote W)
    (word position : string) (n : Z) (w : world) :
  let url := request_url word position n in
  (forall (cls : requests_class) (msg : string),
      requests_get url = Raise (RequestException cls msg) ->
      get_response_list word position n w
      = (Ok (JArr []),
         {| debug_log :=
              (debug_log w ++ transport_log url)
              ++ [{| levelname := ERROR; message := msg |}];
            wire := wire w ++ [url] |}))
  /\ (forall (body : string) (cls : requests_class) (msg : string),
         requests_get url = Ok body ->
         response_json body = Raise (RequestException cls msg) ->
         get_response_list word position n w
         = (Ok (JArr []),
            {| debug_log :=
                 ((debug_log w ++ transport_log url) ++ decode_log body)
                 ++ [{| levelname := ERROR; message := msg |}];
               wire := wire w ++ [url] |}))
  /\ (forall (body : string) (members : list (string * json W))
             (phrases : json W),
         requests_get url = Ok body ->
         response_json body = Ok (JObj members) ->
         dict_get "phrases" members = Some phrases ->
         get_response_list word position n w
         = (Ok phrases,
            {| debug_log := (debug_log w ++ transport_log url) ++ decode_log body;
               wire := wire w ++ [url] |})).
Proof.
  intros url. subst url.
  unfold get_response_list, try_except_else, bind, http_get, decode_json, lift,
    ret, logging_error.
  rewrite <- request_url_query.
  split; [| split].
  - intros cls msg Hget. rewrite Hget. reflexivity.
  - intros body cls msg Hget Hjson. rewrite Hget, Hjson. reflexivity.
  - intros body members phrases Hget Hjson Hkey.
    rewrite Hget, Hjson. unfold getitem_str. rewrite Hkey. reflexivity.
Qed.

Lemma get_response_list_outcome_witness :
  (@get_response_list float unreachable_remote "cat" "before" 1 empty_world
   = (Ok (JArr []),
      {| debug_log :=
           (debug_log empty_world
            ++ @transport_log float unreachable_remote
                 (request_url "cat" "before" 1))
           ++ [{| levelname := ERROR; message := "connection refused" |}];
         wire := wire empty_world ++ [request_url "cat" "before" 1] |}))
  /\ (@get_response_list float garbled_remote "cat" "before" 1 empty_world
      = (Ok (JArr []),
         {| debug_log :=
              ((debug_log empty_world
                ++ @transport_log float garbled_remote
                     (request_url "cat" "before" 1))
               ++ @decode_log float garbled_remote "<html>")
              ++ [{| levelname := ERROR; message := "Expecting value" |}];
            wire := wire empty_world ++ [request_url "cat" "before" 1] |}))
  /\ (@get_response_list float healthy_remote "cat" "before" 1 empty_world
      = (Ok demo_phrases_json,
         {| debug_log :=
              (debug_log empty_world
               ++ @transport_log float healthy_remote
                    (request_url "cat" "before" 1))
              ++ @decode_log float healthy_remote "{...}";
            wire := wire empty_world ++ [request_url "cat" "before" 1] |})).
Proof.
  split; [| split].
  - apply (proj1 (get_response_list_outcome float unreachable_remote
                    "cat" "before" 1 empty_world) ConnectionError).
    reflexivity.
  - apply (proj1 (proj2 (get_response_list_outcome float garbled_remote
                           "cat" "before" 1 empty_world))
             "<html>" JSONDecodeError); reflexivity.
  - apply (proj2 (proj2 (get_response_list_outcome float healthy_remote
                           "cat" "before" 1 empty_world))
             "{...}" [("phrases", demo_phrases_json)]); reflexivity.
Defined.

(** The endpoints of the examples, run. *)
Example lookup_unreachable :
  @get_response_list float unreachable_remote "cat" "after" 1 empty_world
  = (Ok (JArr []),
     {| debug_log := [connection_record;
                      {| levelname := ERROR; message := "connection refused" |}];
        wire := ["https://api.phrasefinder.io/search?corpus=eng-gb&query=cat%20%3F"] |}).
Proof. reflexivity. Qed.

Example lookup_healthy :
  @get_response_list float healthy_remote "cat" "after" 1 empty_world
  = (Ok demo_phrases_json,
     {| debug_log := [connection_record];
        wire := ["https://api.phrasefinder.io/search?corpus=eng-gb&query=cat%20%3F"] |}).
Proof. reflexivity. Qed.

(** * Further properties *)

(** ** Query builder *)

Lemma list_ascii_of_string_app (a b : string) :
  list_ascii_of_string (a ++ b)
  = (list_ascii_of_string a ++ list_ascii_of_string b)%list.
Proof.
  induction a as [| c a IH]; [reflexivity |].
  cbn [append list_ascii_of_string]. now rewrite IH.
Qed.

Lemma quote_byte_url_chars (b c : ascii) :
  In c (list_ascii_of_string (quote_byte "/" b)) -> url_char c.
Proof.
  unfold quote_byte, url_char.
  destruct (always_safe b || char_in b "/") eqn:Hsafe.
  - cbn [list_ascii_of_string In]. intros [<- | []].
    apply orb_true_iff in Hsafe. destruct Hsafe as [Hs | Hs]; [now left |].
    right; left. unfold char_in in Hs. cbn in Hs.
    rewrite orb_false_r in Hs. now apply Ascii.eqb_eq in Hs.
  - clear Hsafe. cbn [list_ascii_of_string In].
    intros [<- | [<- | [<- | []]]].
    + now right; right.
    + left. destruct b as [[] [] [] [] [] [] [] []]; reflexivity.
    + left. destruct b as [[] [] [] [] [] [] [] []]; reflexivity.
Qed.

Lemma quote_url_chars (s : string) (c : ascii) :
  In c (list_ascii_of_string (quote s)) -> url_char c.
Proof.
  unfold quote. induction s as [| b s IH]; cbn [quote_with].
  - intros [].
  - rewrite list_ascii_of_string_app, in_app_iff.
    intros [Hb | Hs]; [now apply quote_byte_url_chars with b | now apply IH].
Qed.

Lemma count_char_app (c : ascii) (a b : string) :
  count_char c (a ++ b) = (count_char c a + count_char c b)%nat.
Proof.
  induction a as [| x a IH]; [reflexivity |].
  cbn [append count_char]. rewrite IH. lia.
Qed.

Lemma count_char_absent (c : ascii) (s : string) :
  ~ In c (list_ascii_of_string s) -> count_char c s = 0%nat.
Proof.
  induction s as [| x s IH]; [reflexivity |].
  cbn [list_ascii_of_string In count_char]. intros Hnot.
  destruct (Ascii.eqb c x) eqn:Hcx.
  - apply Ascii.eqb_eq in Hcx. subst. exfalso. apply Hnot. now left.
  - rewrite IH; [reflexivity | tauto].
Qed.

(** X1: the request addresses the fixed endpoint with the corpus
    [eng-gb], and un-escaping its [query] parameter gives back the search
    pattern, whatever bytes the anchor word holds. *)
Theorem request_url_round_trip (word position : string) (n : Z) :
  exists escaped : string,
    request_url word position n
    = "https://api.phrasefinder.io/search?corpus=eng-gb&query=" ++ escaped
    /\ unquote escaped = search_pattern word position n.
Proof.
  exists (encoded_query word position n). split.
  - reflexivity.
  - apply unquote_quote.
Qed.

(** X2: the escaped query holds only letters, digits and the characters
    [_ . - ~ / %]; no space, [&], [=], [?], [#] or [+] of the anchor word
    survives unescaped. *)
Theorem encoded_query_url_safe (word position : string) (n : Z) (c : ascii) :
  In c (list_ascii_of_string (encoded_query word position n)) ->
  url_char c
  /\ ~ In c [" "; "&"; "="; "?"; "#"; "+"]%char.
Proof.
  intros Hin. apply quote_url_chars in Hin. split; [exact Hin |].
  intros Hbad. cbn [In] in Hbad.
  destruct Hin as [Hs | [-> | ->]];
    repeat (destruct Hbad as [Heq | Hbad];
            [try (subst c; vm_compute in Hs); discriminate |]);
    exact Hbad.
Qed.

Lemma encoded_query_url_safe_witness :
  url_char "%"
  /\ ~ In "%"%char [" "; "&"; "="; "?"; "#"; "+"]%char.
Proof.
  apply (encoded_query_url_safe "a b" "after" 1 "%"%char).
  vm_compute. tauto.
Defined.

(** X3: an anchor word cannot add or split parameters: the query string
    holds exactly one [&] and two [=], those of the two fixed
    parameters. *)
Theorem query_string_two_parameters (word position : string) (n : Z) :
  count_char "&" (query_string word position n) = 1%nat
  /\ count_char "=" (query_string word position n) = 2%nat.
Proof.
  assert (Hno : forall c : ascii,
             In c ["&"; "="]%char ->
             count_char c (encoded_query word position n) = 0%nat).
  { intros c Hc. apply count_char_absent. intros Hin.
    apply quote_url_chars in Hin. cbn [In] in Hc.
    destruct Hc as [<- | [<- | []]];
      destruct Hin as [Hs | [Hs | Hs]]; discriminate Hs. }
  unfold query_string, query_params, join.
  cbn [map fst snd String.concat].
  rewrite !count_char_app, !Hno by (cbn [In]; tauto).
  split; reflexivity.
Qed.

(** X4: with a wildcard count of zero or below no placeholder is sent:
    the pattern is the anchor word with one space before it (position
    [before]) or after it (any other position). *)
Theorem search_pattern_without_wildcards (word position : string) (n : Z) :
  n <= 0 ->
  search_pattern word "before" n = " " ++ word
  /\ (position <> "before" -> search_pattern word position n = word ++ " ").
Proof.
  intros Hn. unfold search_pattern, str_mul, join.
  replace (Z.to_nat n) with 0%nat by lia.
  split; [reflexivity |].
  intros Hpos. apply String.eqb_neq in Hpos. now rewrite Hpos.
Qed.

Lemma search_pattern_without_wildcards_witness :
  search_pattern "cat" "before" (-3) = " " ++ "cat"
  /\ ("after" <> "before" -> search_pattern "cat" "after" (-3) = "cat" ++ " ").
Proof. apply search_pattern_without_wildcards. lia. Defined.

(** X5: the two stages read an unknown position differently.  A position
    that is neither [before] nor [after] makes the query builder put the
    wildcards after the anchor word, while the cleaner takes the tokens in
    front of the final token. *)
Theorem position_read_differently (W : Type) (r : phrase W)
    (word position : string) (n : Z) :
  position <> "before" ->
  position <> "after" ->
  search_pattern word position n = search_pattern word "after" n
  /\ answer_words r position n = answer_words r "before" n.
Proof.
  intros Hb Ha. apply String.eqb_neq in Hb, Ha.
  unfold search_pattern, answer_words. rewrite Hb, Ha. split; reflexivity.
Qed.

Lemma position_read_differently_witness :
  search_pattern "cat" "Before" 1 = search_pattern "cat" "after" 1
  /\ answer_words demo_record "Before" 1 = answer_words demo_record "before" 1.
Proof. apply position_read_differently; discriminate. Defined.

(** ** Remote lookup *)


(** X7: a body that decodes to an object without the key [phrases] makes
    the lookup raise [KeyError]; a body that decodes to something else
    than an object makes it raise [TypeError].  The program logs neither:
    the log holds what the libraries wrote and nothing more. *)
Theorem get_response_list_missing_key (W : Type) (R : Remote W)
    (word position : string) (n : Z) (w : world)
    (body : string) (decoded : json W) :
  requests_get (request_url word position n) = Ok body ->
  response_json body = Ok decoded ->
  (forall phrases : json W, getitem_str decoded "phrases" <> Ok phrases) ->
  exists e : exn,
    get_response_list word position n w
    = (Raise e,
       {| debug_log :=
            (debug_log w ++ transport_log (request_url word position n))
            ++ decode_log body;
          wire := wire w ++ [request_url word position n] |})
    /\ match decoded with
       | JObj _ => e = KeyError "phrases"
       | _ => exists msg : string, e = TypeError msg
       end.
Proof.
  intros Hget Hjson Hnone.
  unfold get_response_list, try_except_else, bind, http_get, decode_json, lift,
    ret.
  rewrite <- request_url_query, Hget, Hjson.
  destruct (getitem_str decoded "phrases") as [v | e] eqn:Hitem.
  - now destruct (Hnone v).
  - exists e. split; [reflexivity |].
    destruct decoded; cbn in Hitem; try (injection Hitem as <-; eauto).
    destruct (dict_get "phrases" members); [discriminate |].
    now injection Hitem as <-.
Qed.

Lemma get_response_list_missing_key_witness :
  exists e : exn,
    @get_response_list float keyless_remote "cat" "before" 1 empty_world
    = (Raise e,
       {| debug_log :=
            (debug_log empty_world
             ++ @transport_log float keyless_remote
                  (request_url "cat" "before" 1))
            ++ @decode_log float keyless_remote "{...}";
          wire := wire empty_world ++ [request_url "cat" "before" 1] |})
    /\ match JObj [("error", @JStr float "quota exceeded")] with
       | JObj _ => e = KeyError "phrases"
       | _ => exists msg : string, e = TypeError msg
       end.
Proof.
  apply (get_response_list_missing_key float keyless_remote "cat" "before" 1
           empty_world "{...}" (JObj [("error", JStr "quota exceeded")])).
  - reflexivity.
  - reflexivity.
  - intros phrases. discriminate.
Defined.

(** X8: an exception outside the [RequestException] hierarchy is not
    handled.  Raised by the GET, or by the decoding of the body, it
    reaches the caller unchanged, and the program logs nothing: the log
    holds the records of the libraries only. *)
Theorem get_response_list_uncaught (W : Type) (R : Remote W)
    (word position : string) (n : Z) (w : world) (e : exn) :
  is_RequestException e = false ->
  let url := request_url word position n in
  (requests_get url = Raise e ->
   get_response_list word position n w
   = (Raise e,
      {| debug_log := debug_log w ++ transport_log url;
         wire := wire w ++ [url] |}))
  /\ (forall body : string,
         requests_get url = Ok body ->
         response_json body = Raise e ->
         get_response_list word position n w
         = (Raise e,
            {| debug_log := (debug_log w ++ transport_log url) ++ decode_log body;
               wire := wire w ++ [url] |})).
Proof.
  intros He url. subst url.
  unfold get_response_list, try_except_else, bind, http_get, decode_json, lift.
  rewrite <- request_url_query.
  split.
  - intros Hget. now rewrite Hget, He.
  - intros body Hget Hjson. now rewrite Hget, Hjson, He.
Qed.

Lemma get_response_list_uncaught_witness :
  (@get_response_list float broken_remote "cat" "before" 1 empty_world
   = (Raise (TypeError "unsupported operand"),
      {| debug_log :=
           debug_log empty_world
           ++ @transport_log float broken_remote (request_url "cat" "before" 1);
         wire := wire empty_world ++ [request_url "cat" "before" 1] |}))
  /\ (@get_response_list float nested_remote "cat" "before" 1 empty_world
      = (Raise (OtherError "RecursionError" "maximum recursion depth exceeded"),
         {| debug_log :=
              (debug_log empty_world
               ++ @transport_log float nested_remote
                    (request_url "cat" "before" 1))
              ++ @decode_log float nested_remote "[[[[...";
            wire := wire empty_world ++ [request_url "cat" "before" 1] |})).
Proof.
  split.
  - apply (proj1 (get_response_list_uncaught float broken_remote
                    "cat" "before" 1 empty_world
                    (TypeError "unsupported operand") eq_refl)).
    reflexivity.
  - apply (proj2 (get_response_list_uncaught float nested_remote
                    "cat" "before" 1 empty_world
                    (OtherError "RecursionError"
                                "maximum recursion depth exceeded") eq_refl)
             "[[[[..."); reflexivity.
Defined.

(** X9: the lookup never lets a [RequestException] out: whatever it
    raises is of another class. *)
Theorem get_response_list_contains_RequestException (W : Type) (R : Remote W)
    (word position : string) (n : Z) (w : world) (e : exn) :
  fst (get_response_list word position n w) = Raise e ->
  is_RequestException e = false.
Proof.
  unfold get_response_list, try_except_else, bind, http_get, decode_json, lift,
    ret, logging_error.
  destruct (requests_get _) as [body | e1].
  - destruct (response_json body) as [decoded | e2].
    + destruct decoded; cbn; try (intros [= <-]; reflexivity).
      destruct (dict_get "phrases" members); cbn; [discriminate |].
      intros [= <-]. reflexivity.
    + destruct (is_RequestException e2) eqn:He2; cbn.
      * discriminate.
      * now intros [= <-].
  - destruct (is_RequestException e1) eqn:He1; cbn.
    + discriminate.
    + now intros [= <-].
Qed.

Lemma get_response_list_contains_RequestException_witness :
  is_RequestException (KeyError "phrases") = false.
Proof.
  apply (get_response_list_contains_RequestException float keyless_remote
           "cat" "before" 1 empty_world (KeyError "phrases")).
  reflexivity.
Defined.

(** ** Response cleaner *)

Lemma py_slice_segment {A : Type} (l : list A) (start stop : option Z) :
  exists pre post : list A, l = (pre ++ py_slice l start stop ++ post)%list.
Proof.
  unfold py_slice. cbv zeta.
  match goal with
  | |- context [firstn ?k (skipn ?lo l)] =>
      exists (firstn lo l), (skipn k (skipn lo l))
  end.
  now rewrite !firstn_skipn.
Qed.

Lemma py_slice_to_last {A : Type} (l : list A) (i : Z) :
  0 <= i ->
  py_slice l (Some i) (Some (-1)) = skipn (Z.to_nat i) (removelast l).
Proof.
  intros Hi. unfold py_slice, adjust_index.
  replace (i <? 0) with false by (symmetry; apply Z.ltb_ge; lia).
  replace (-1 <? 0) with true by reflexivity.
  rewrite removelast_firstn_pred, skipn_firstn_comm.
  set (len := length l).
  destruct (Z_le_gt_dec (Z.of_nat len) i) as [Hbig | Hsmall].
  - replace (Z.min i (Z.of_nat len)) with (Z.of_nat len) by lia.
    rewrite Nat2Z.id.
    rewrite (skipn_all2 l) by (subst len; lia).
    rewrite (skipn_all2 l) by (subst len; lia).
    now rewrite !firstn_nil.
  - replace (Z.min i (Z.of_nat len)) with i by lia.
    f_equal. lia.
Qed.

Lemma answer_words_length (W : Type) (r : phrase W) (position : string)
    (n : Z) :
  (length (answer_words r position n) <= length (tks r) - 1)%nat.
Proof.
  unfold answer_words, py_slice, adjust_index.
  destruct (String.eqb position "after").
  - rewrite length_firstn, length_skipn. cbn [Z.ltb Z.compare].
    etransitivity; [apply Nat.le_min_r |]. lia.
  - rewrite length_firstn, length_skipn.
    replace (-1 <? 0) with true by reflexivity.
    etransitivity; [apply Nat.le_min_l |].
    destruct (-1 - n <? 0) eqn:Hneg; [lia |].
    apply Z.ltb_ge in Hneg. lia.
Qed.


(** X11: a negative wildcard count [n] with position [before] selects the
    tokens from index [-1 - n] up to the final token, which is left out;
    the count [-1] therefore selects every token but the final one. *)
Theorem answer_words_negative_count (W : Type) (r : phrase W) (n : Z) :
  n < 0 ->
  answer_words r "before" n = skipn (Z.to_nat (-1 - n)) (removelast (tks r)).
Proof.
  intros Hn. unfold answer_words. cbn [String.eqb Ascii.eqb Bool.eqb].
  apply py_slice_to_last. lia.
Qed.

Lemma answer_words_negative_count_witness :
  answer_words demo_record "before" (-1)
  = skipn (Z.to_nat (-1 - -1)) (removelast (tks demo_record)).
Proof. apply answer_words_negative_count. lia. Defined.

(** X12: a record of at most one token has no candidate token, whatever
    the position and the count; the dictionary check then holds
    vacuously, and the record yields the candidate with the empty text as
    soon as its score exceeds [0.001]. *)
Theorem short_record_empty_candidate (W : Type) (N : Number W) (L : Lexicon)
    (r : phrase W) (position : string) (n : Z) :
  (length (tks r) <= 1)%nat ->
  answer_words r position n = []
  /\ collect_responses [r] position n
     = if w_gtb (sc r) w_milli then [(EmptyString, mc r)] else [].
Proof.
  intros Hlen.
  assert (Hnil : answer_words r position n = []).
  { pose proof (answer_words_length W r position n) as Hle.
    destruct (answer_words r position n); [reflexivity | cbn in Hle; lia]. }
  split; [exact Hnil |].
  rewrite collect_responses_flat_map. cbn [flat_map].
  unfold contribution, accepted, answer. rewrite Hnil, app_nil_r.
  cbn [map forallb join String.concat]. now rewrite andb_true_r.
Qed.

Lemma short_record_empty_candidate_witness :
  answer_words {| tks := [tok "fox"]; sc := 0.5%float; mc := 3%float |}
    "after" 1 = []
  /\ @collect_responses float float_Number demo_lexicon
       [{| tks := [tok "fox"]; sc := 0.5%float; mc := 3%float |}] "after" 1
     = if w_gtb (sc {| tks := [tok "fox"]; sc := 0.5%float; mc := 3%float |})
               w_milli
       then [(EmptyString,
              mc {| tks := [tok "fox"]; sc := 0.5%float; mc := 3%float |})]
       else [].
Proof.
  apply (short_record_empty_candidate float float_Number demo_lexicon).
  cbn. lia.
Defined.

(** X13: the records are judged independently of each other: cleaning a
    concatenation gives the concatenation of the cleaned parts, in the
    order of the records, and a list of records never yields more
    candidates than it has records. *)
Theorem collect_responses_independent (W : Type) (N : Number W) (L : Lexicon)
    (l1 l2 : list (phrase W)) (position : string) (n : Z) :
  collect_responses (l1 ++ l2) position n
  = (collect_responses l1 position n ++ collect_responses l2 position n)%list
  /\ (length (collect_responses l1 position n) <= length l1)%nat.
Proof.
  split; [apply collect_responses_app |].
  rewrite collect_responses_flat_map.
  induction l1 as [| r l IH]; [apply Nat.le_refl |].
  cbn [flat_map]. rewrite length_app. unfold contribution at 1.
  destruct (accepted r position n); cbn [length]; lia.
Qed.

(** ** Normalizer / aggregator *)

Section GroupingFacts.

Context {W : Type} {N : Number W}.

Lemma dict_get_iadd_same (d : list (string * W)) (k : string) (v : W) :
  dict_get k (defaultdict_iadd d k v)
  = Some (w_add (match dict_get k d with Some x => x | None => w_zero end) v).
Proof.
  induction d as [| [k' x] d IH]; cbn [defaultdict_iadd dict_get].
  - now rewrite String.eqb_refl.
  - destruct (String.eqb k' k) eqn:Hk; cbn [dict_get]; rewrite Hk.
    + reflexivity.
    + exact IH.
Qed.

Lemma dict_get_iadd_other (d : list (string * W)) (k k' : string) (v : W) :
  k' <> k ->
  dict_get k' (defaultdict_iadd d k v) = dict_get k' d.
Proof.
  intros Hne. induction d as [| [k0 x] d IH]; cbn [defaultdict_iadd dict_get].
  - replace (String.eqb k k') with false; [reflexivity |].
    symmetry. apply String.eqb_neq. congruence.
  - destruct (String.eqb k0 k) eqn:Hk; cbn [dict_get].
    + apply String.eqb_eq in Hk. subst k0.
      replace (String.eqb k k') with false; [reflexivity |].
      symmetry. apply String.eqb_neq. congruence.
    + now rewrite IH.
Qed.

Lemma keys_iadd (d : list (string * W)) (k : string) (v : W) :
  map fst (defaultdict_iadd d k v)
  = (map fst d ++ (if str_in k (map fst d) then [] else [k]))%list.
Proof.
  induction d as [| [k' x] d IH]; cbn [defaultdict_iadd map fst]; [reflexivity |].
  unfold str_in. cbn [existsb]. fold (str_in k (map fst d)).
  rewrite (String.eqb_sym k k').
  destruct (String.eqb k' k); cbn [map fst orb].
  - now rewrite app_nil_r.
  - now rewrite IH.
Qed.

Lemma NoDup_keys_iadd (d : list (string * W)) (k : string) (v : W) :
  NoDup (map fst d) -> NoDup (map fst (defaultdict_iadd d k v)).
Proof.
  intros Hd. rewrite keys_iadd.
  destruct (str_in k (map fst d)) eqn:Hin.
  - now rewrite app_nil_r.
  - apply NoDup_app; [assumption | repeat constructor; intros [] |].
    intros x Hx [<- | []].
    apply str_in_In in Hx. congruence.
Qed.

Lemma In_dict_get (d : list (string * W)) (k : string) (x : W) :
  NoDup (map fst d) -> In (k, x) d -> dict_get k d = Some x.
Proof.
  induction d as [| [k' y] d IH]; cbn [map fst In dict_get]; [intros _ [] |].
  intros Hnd [Heq | Hin].
  - injection Heq as -> ->. now rewrite String.eqb_refl.
  - inversion Hnd as [| ? ? Hnot Hnd']; subst.
    destruct (String.eqb k' k) eqn:Hk.
    + apply String.eqb_eq in Hk. subst k'. exfalso. apply Hnot.
      now apply (in_map fst) in Hin.
    + now apply IH.
Qed.

Context {L : Lexicon}.

(** The dictionary after the pairs of [lst] have been added to [d]. *)
Lemma grouping_invariant (lst d : list (string * W)) :
  let d' := fold_left (fun d kv => defaultdict_iadd d (fst kv) (snd kv)) lst d in
  (NoDup (map fst d) -> NoDup (map fst d'))
  /\ map fst d'
     = (map fst d ++ first_occurrences (map fst lst) (map fst d))%list
  /\ forall k : string,
       dict_get k d'
       = let ws := map snd (filter (fun kv => String.eqb (fst kv) k) lst) in
         match dict_get k d, ws with
         | Some x, _ => Some (fold_left w_add ws x)
         | None, [] => None
         | None, _ => Some (fold_left w_add ws w_zero)
         end.
Proof.
  revert d. induction lst as [| [k0 v] lst IH]; intros d; cbn zeta.
  - cbn [fold_left map filter first_occurrences].
    split; [auto |]. split; [now rewrite app_nil_r |].
    intros k. now destruct (dict_get k d).
  - cbn [fold_left fst snd].
    specialize (IH (defaultdict_iadd d k0 v)). cbn zeta in IH.
    destruct IH as (IHnd & IHkeys & IHget).
    split; [| split].
    + intros Hd. apply IHnd. now apply NoDup_keys_iadd.
    + rewrite IHkeys, keys_iadd. cbn [map fst first_occurrences].
      destruct (str_in k0 (map fst d)) eqn:Hin.
      * now rewrite app_nil_r.
      * rewrite <- app_assoc. cbn [app]. f_equal. f_equal.
        clear. generalize (map fst lst) as l. intros l.
        revert d. induction l as [| x l IHl]; intros d; [reflexivity |].
        cbn [first_occurrences].
        assert (Hsame : forall s1 s2 : list string,
                   (forall y, In y s1 <-> In y s2) ->
                   first_occurrences l s1 = first_occurrences l s2).
        { clear. induction l as [| z l IHl]; intros s1 s2 Hs; [reflexivity |].
          cbn [first_occurrences].
          assert (Hz : str_in z s1 = str_in z s2).
          { destruct (str_in z s1) eqn:H1; destruct (str_in z s2) eqn:H2;
              try reflexivity.
            - apply str_in_In, Hs, str_in_In in H1. congruence.
            - apply str_in_In, Hs, str_in_In in H2. congruence. }
          rewrite Hz. destruct (str_in z s2); [now apply IHl |].
          f_equal. apply IHl. intros y. cbn [In]. now rewrite Hs. }
        assert (Hx : str_in x (map fst d ++ [k0]) = str_in x (k0 :: map fst d)).
        { destruct (str_in x (map fst d ++ [k0])) eqn:H1;
            destruct (str_in x (k0 :: map fst d)) eqn:H2; try reflexivity.
          - apply str_in_In in H1. apply in_app_iff in H1.
            assert (In x (k0 :: map fst d)) as H3
                by (cbn [In] in *; tauto).
            apply str_in_In in H3. congruence.
          - apply str_in_In in H2.
            assert (In x (map fst d ++ [k0])) as H3
                by (apply in_app_iff; cbn [In] in *; tauto).
            apply str_in_In in H3. congruence. }
        rewrite Hx. destruct (str_in x (k0 :: map fst d)).
        -- apply Hsame. intros y. rewrite in_app_iff. cbn [In]. tauto.
        -- f_equal. apply Hsame. intros y. cbn [In]. rewrite in_app_iff.
           cbn [In]. tauto.
    + intros k. rewrite IHget. cbn [filter fst].
      destruct (String.eqb k0 k) eqn:Hk.
      * apply String.eqb_eq in Hk. subst k0.
        rewrite dict_get_iadd_same. cbn [map snd fold_left].
        now destruct (dict_get k d).
      * rewrite dict_get_iadd_other
          by (intros ->; now rewrite String.eqb_refl in Hk).
        reflexivity.
Qed.

Lemma filter_lemma_map (k : string) (words : list (string * W)) :
  map snd (filter (fun kv => String.eqb (fst kv) k)
                  (map (fun word => (lemmatize (fst word), snd word)) words))
  = weights_of_lemma k words.
Proof.
  unfold weights_of_lemma.
  induction words as [| w words IH]; [reflexivity |].
  cbn [map filter fst snd].
  destruct (String.eqb (lemmatize (fst w)) k); cbn [map snd]; now rewrite IH.
Qed.

Lemma lemmatize_and_sum_sorted_groups (words : list (string * W)) :
  lemmatize_and_sum words = sorted_by_weight_reverse (group_by_lemma words).
Proof. reflexivity. Qed.

Lemma group_by_lemma_facts (words : list (string * W)) :
  NoDup (map fst (group_by_lemma words))
  /\ map fst (group_by_lemma words)
     = first_occurrences (map lemmatize (map fst words)) []
  /\ forall (k : string) (x : W),
       In (k, x) (group_by_lemma words) ->
       x = py_sum (weights_of_lemma k words).
Proof.
  unfold group_by_lemma.
  pose proof (grouping_invariant
                (map (fun word => (lemmatize (fst word), snd word)) words) [])
    as Hinv.
  cbn zeta in Hinv. destruct Hinv as (Hnd & Hkeys & Hget).
  specialize (Hnd (NoDup_nil _)). split; [exact Hnd |]. split.
  - rewrite Hkeys. cbn [map app]. now rewrite !map_map.
  - intros k x Hin. apply In_dict_get in Hin; [| exact Hnd].
    rewrite Hget, filter_lemma_map in Hin. cbn [dict_get] in Hin.
    unfold py_sum. destruct (weights_of_lemma k words);
      [discriminate | now injection Hin as <-].
Qed.

End GroupingFacts.

Lemma In_first_occurrences (l seen : list string) (k : string) :
  In k (first_occurrences l seen) <-> In k l /\ ~ In k seen.
Proof.
  revert seen. induction l as [| x l IH]; intros seen; cbn [first_occurrences In].
  - tauto.
  - destruct (str_in x seen) eqn:Hx.
    + apply str_in_In in Hx. rewrite IH. split.
      * tauto.
      * intros [[-> | Hl] Hs]; tauto.
    + assert (~ In x seen) as Hnot
          by (intros Hin; apply str_in_In in Hin; congruence).
      cbn [In]. rewrite IH. cbn [In]. split.
      * intros [<- | [Hl Hs]]; tauto.
      * intros [[-> | Hl] Hs]; [tauto |].
        destruct (string_dec x k) as [-> | Hne]; tauto.
Qed.

(** X14: [d[k] += v] on the insertion-ordered dictionary: afterwards [k]
    holds its former value, or [0] if it was absent, increased by [v];
    every other key holds what it held. *)
Theorem defaultdict_iadd_lookup (W : Type) (N : Number W)
    (d : list (string * W)) (k : string) (v : W) :
  dict_get k (defaultdict_iadd d k v)
  = Some (w_add (match dict_get k d with Some x => x | None => w_zero end) v)
  /\ forall k' : string,
       k' <> k -> dict_get k' (defaultdict_iadd d k v) = dict_get k' d.
Proof.
  split.
  - apply dict_get_iadd_same.
  - intros k' Hne. now apply dict_get_iadd_other.
Qed.

(** X15: the aggregator emits one pair per lemma: the texts of its output
    are pairwise distinct and are exactly the lemmas of the input
    texts. *)
Theorem lemmatize_and_sum_one_pair_per_lemma (W : Type) (N : Number W)
    (L : Lexicon) (words : list (string * W)) :
  NoDup (map fst (lemmatize_and_sum words))
  /\ forall k : string,
       In k (map fst (lemmatize_and_sum words))
       <-> In k (map lemmatize (map fst words)).
Proof.
  rewrite lemmatize_and_sum_sorted_groups.
  pose proof (sorted_by_weight_reverse_perm (group_by_lemma words)) as Hperm.
  destruct (group_by_lemma_facts words) as (Hnd & Hkeys & _).
  apply (Permutation_map fst) in Hperm.
  split.
  - apply Permutation_NoDup with (map fst (group_by_lemma words));
      [now symmetry | exact Hnd].
  - intros k. split; intros Hin.
    + apply (Permutation_in _ Hperm) in Hin.
      rewrite Hkeys in Hin. now apply In_first_occurrences in Hin.
    + apply (Permutation_in _ (Permutation_sym Hperm)).
      rewrite Hkeys. apply In_first_occurrences. split; [assumption | intros []].
Qed.

(** X16: the weight the aggregator gives a lemma is the sum, taken from
    [0] in input order, of the weights of the input pairs whose text has
    this lemma, and there is at least one such pair.  This holds for
    every arithmetic, rounding floats included. *)
Theorem lemmatize_and_sum_group_weight (W : Type) (N : Number W)
    (L : Lexicon) (words : list (string * W)) (k : string) (x : W) :
  In (k, x) (lemmatize_and_sum words) ->
  x = py_sum (weights_of_lemma k words)
  /\ weights_of_lemma k words <> [].
Proof.
  intros Hin.
  rewrite lemmatize_and_sum_sorted_groups in Hin.
  apply (Permutation_in _ (sorted_by_weight_reverse_perm _)) in Hin.
  destruct (group_by_lemma_facts words) as (_ & Hkeys & Hsum).
  split.
  - now apply Hsum.
  - apply (in_map fst) in Hin. cbn [fst] in Hin.
    rewrite Hkeys in Hin. apply In_first_occurrences in Hin.
    destruct Hin as [Hin _].
    rewrite map_map in Hin. apply in_map_iff in Hin.
    destruct Hin as (word & Hlemma & Hword).
    unfold weights_of_lemma. intros Hnil.
    apply (f_equal (@length W)) in Hnil. rewrite length_map in Hnil.
    assert (Hf : In word (filter (fun w => String.eqb (lemmatize (fst w)) k)
                                 words))
      by (apply filter_In; split; [assumption | now apply String.eqb_eq]).
    destruct (filter _ words); [contradiction | discriminate].
Qed.

Lemma lemmatize_and_sum_group_weight_witness :
  two53
  = py_sum (@weights_of_lemma float demo_lexicon "fox"
              [("fox", two53); ("foxes", 1%float); ("fox", 1%float);
               ("dog", 1%float); ("dog", 1%float)])
  /\ @weights_of_lemma float demo_lexicon "fox"
       [("fox", two53); ("foxes", 1%float); ("fox", 1%float);
        ("dog", 1%float); ("dog", 1%float)] <> [].
Proof.
  apply (lemmatize_and_sum_group_weight float float_Number demo_lexicon).
  vm_compute. left. reflexivity.
Defined.

Lemma iadd_fresh (W : Type) (N : Number W) (d : list (string * W))
    (k : string) (v : W) :
  ~ In k (map fst d) ->
  defaultdict_iadd d k v = (d ++ [(k, w_add w_zero v)])%list.
Proof.
  induction d as [| [k' x] d IH]; cbn [defaultdict_iadd map fst In app];
    [reflexivity |].
  intros Hnot. destruct (String.eqb k' k) eqn:Hk.
  - apply String.eqb_eq in Hk. tauto.
  - rewrite IH by tauto. reflexivity.
Qed.

Lemma group_distinct (W : Type) (N : Number W) (l d : list (string * W)) :
  Forall (fun kv => w_add w_zero (snd kv) = snd kv) l ->
  NoDup (map fst d ++ map fst l) ->
  fold_left (fun d kv => defaultdict_iadd d (fst kv) (snd kv)) l d
  = (d ++ l)%list.
Proof.
  intros Hzero. revert d.
  induction Hzero as [| [k v] l Hv _ IH]; intros d Hnd; cbn [fold_left].
  - now rewrite app_nil_r.
  - cbn [map fst snd] in *.
    rewrite iadd_fresh.
    + rewrite IH.
      * rewrite Hv, <- app_assoc. reflexivity.
      * rewrite map_app, <- app_assoc. exact Hnd.
    + apply NoDup_remove_2 in Hnd. intros Hin. apply Hnd.
      apply in_app_iff. now left.
Qed.

(** X17: on floats, pairs of equal summed weight keep the order in which
    their lemmas first occur in the input.  When no summed weight is
    NaN, the output restricted to the pairs that weigh the same as a
    given pair (itself not NaN) lists them as the dictionary does, and
    the dictionary holds the lemmas in the order of their first
    occurrence. *)
Theorem lemmatize_and_sum_ties (L : Lexicon) (words : list (string * float))
    (p : string * float) :
  Forall (fun kv => not_nan (snd kv)) (group_by_lemma words) ->
  not_nan (snd p) ->
  filter (same_weight p) (lemmatize_and_sum words)
  = filter (same_weight p) (group_by_lemma words)
  /\ map fst (group_by_lemma words)
     = first_occurrences (map lemmatize (map fst words)) [].
Proof.
  intros _ Hp. split.
  - rewrite lemmatize_and_sum_sorted_groups.
    now apply (sorted_by_weight_reverse_stable not_nan float_ltb_negtrans).
  - apply group_by_lemma_facts.
Qed.

Lemma lemmatize_and_sum_ties_witness :
  let words :=
    [("dog", 5%float); ("foxes", 3%float); ("the", 5%float); ("fox", 4%float)] in
  (@lemmatize_and_sum float float_Number demo_lexicon words
   = [("fox", 7%float); ("dog", 5%float); ("the", 5%float)])
  /\ filter (same_weight ("dog", 5%float))
       (@lemmatize_and_sum float float_Number demo_lexicon words)
     = filter (same_weight ("dog", 5%float))
         (@group_by_lemma float float_Number demo_lexicon words)
  /\ map fst (@group_by_lemma float float_Number demo_lexicon words)
     = first_occurrences (map (@lemmatize demo_lexicon) (map fst words)) [].
Proof.
  cbv zeta. split; [vm_compute; reflexivity |].
  apply (lemmatize_and_sum_ties demo_lexicon
           [("dog", 5%float); ("foxes", 3%float); ("the", 5%float);
            ("fox", 4%float)] ("dog", 5%float)).
  - assert (Hd : @group_by_lemma float float_Number demo_lexicon
                   [("dog", 5%float); ("foxes", 3%float); ("the", 5%float);
                    ("fox", 4%float)]
                 = [("dog", 5%float); ("fox", 7%float); ("the", 5%float)])
      by (vm_compute; reflexivity).
    rewrite Hd. repeat constructor.
  - reflexivity.
Defined.

(** X18: on floats, aggregating an aggregated list changes nothing,
    provided the lemmatizer maps every lemma to itself, no summed weight
    is NaN and [0.0 + x] gives [x] back for every summed weight [x] (as
    it does for every float but [-0.0]). *)
Theorem lemmatize_and_sum_idempotent (L : Lexicon)
    (words : list (string * float)) :
  (forall t : string, lemmatize (lemmatize t) = lemmatize t) ->
  Forall (fun kv => not_nan (snd kv) /\ w_add w_zero (snd kv) = snd kv)
         (lemmatize_and_sum words) ->
  lemmatize_and_sum (lemmatize_and_sum words) = lemmatize_and_sum words.
Proof.
  intros Hidem Hout.
  set (out := lemmatize_and_sum words) in *.
  assert (Hperm : Permutation out (group_by_lemma words))
    by apply sorted_by_weight_reverse_perm.
  assert (Hsorted : StronglySorted not_below out).
  { apply (sorted_by_weight_reverse_sorted not_nan float_ltb_asym
             float_ltb_negtrans).
    eapply Permutation_Forall; [exact Hperm |].
    eapply Forall_impl; [| exact Hout]. now intros kv [Hnan _]. }
  destruct (group_by_lemma_facts words) as (Hnd & Hkeys & _).
  assert (Hnd_out : NoDup (map fst out)).
  { apply Permutation_NoDup with (map fst (group_by_lemma words));
      [symmetry; now apply Permutation_map | exact Hnd]. }
  assert (Hlemmas : map (fun word => (lemmatize (fst word), snd word)) out
                    = out).
  { rewrite <- (map_id out) at 2. apply map_ext_in.
    intros [k x] Hin. cbn [fst snd]. f_equal.
    apply (Permutation_in _ Hperm), (in_map fst) in Hin. cbn [fst] in Hin.
    rewrite Hkeys in Hin. apply In_first_occurrences in Hin.
    destruct Hin as [Hin _]. apply in_map_iff in Hin.
    destruct Hin as (t & <- & _). apply Hidem. }
  unfold lemmatize_and_sum at 1. fold out. rewrite Hlemmas.
  rewrite (group_distinct float float_Number out []).
  - cbn [app]. now apply sorted_by_weight_reverse_fixed.
  - eapply Forall_impl; [| exact Hout]. now intros kv [_ Hzero].
  - exact Hnd_out.
Qed.

Lemma lemmatize_and_sum_idempotent_witness :
  let words := [("foxes", 3%float); ("dog", 5%float); ("fox", 4%float)] in
  @lemmatize_and_sum float float_Number demo_lexicon
    (@lemmatize_and_sum float float_Number demo_lexicon words)
  = @lemmatize_and_sum float float_Number demo_lexicon words.
Proof.
  cbv zeta.
  apply (lemmatize_and_sum_idempotent demo_lexicon).
  - intros t. cbn [lemmatize demo_lexicon].
    destruct (String.eqb t "foxes") eqn:Ht; [reflexivity |].
    now rewrite Ht.
  - assert (Hout : @lemmatize_and_sum float float_Number demo_lexicon
                     [("foxes", 3%float); ("dog", 5%float); ("fox", 4%float)]
                   = [("fox", 7%float); ("dog", 5%float)])
      by (vm_compute; reflexivity).
    rewrite Hout. repeat constructor.
Defined.

(** ** Scorer and the stages behind the lookup *)

Lemma score_generator_cases (W : Type) (N : Number W)
    (words : list (string * W)) :
  (words = [] /\ score_generator words = Ok [])
  \/ (words <> [] /\ w_eqb (total_weight words) w_zero = true
      /\ score_generator words = Raise ZeroDivisionError)
  \/ (words <> [] /\ w_eqb (total_weight words) w_zero = false
      /\ score_generator words
         = Ok (map (fun w => (fst w,
                              w_mul (w_quot (snd w) (total_weight words))
                                    w_hundred))
                   words)).
Proof.
  destruct words as [| w words]; [left; split; reflexivity |].
  right. destruct (w_eqb (total_weight (w :: words)) w_zero) eqn:Hz.
  - left. repeat split; [discriminate |]. now apply score_generator_cons_zero.
  - right. repeat split; [discriminate |]. now apply score_generator_nonzero.
Qed.

(** X19: the scorer has three outcomes and no other.  It raises
    [ZeroDivisionError] exactly on a non-empty list whose total compares
    equal to [0], and raises nothing else; when it returns, the texts of
    the result are the texts of the input, in the same order. *)
Theorem score_generator_outcomes (W : Type) (N : Number W)
    (words : list (string * W)) :
  (score_generator words = Raise ZeroDivisionError
   <-> words <> [] /\ w_eqb (total_weight words) w_zero = true)
  /\ (forall e : exn, score_generator words = Raise e -> e = ZeroDivisionError)
  /\ (forall scores : list (string * W),
         score_generator words = Ok scores ->
         map fst scores = map fst words).
Proof.
  destruct (score_generator_cases W N words)
    as [[Hnil Hres] | [(Hne & Hz & Hres) | (Hne & Hz & Hres)]];
    rewrite Hres.
  - split; [| split].
    + split; [discriminate | tauto].
    + discriminate.
    + intros scores [= <-]. now subst words.
  - split; [| split].
    + tauto.
    + now intros e [= <-].
    + discriminate.
  - split; [| split].
    + split; [discriminate | intros [_ Hz']; congruence].
    + discriminate.
    + intros scores [= <-]. rewrite map_map. reflexivity.
Qed.

Lemma lemmatize_and_sum_nil_iff (W : Type) (N : Number W) (L : Lexicon)
    (words : list (string * W)) :
  lemmatize_and_sum words = [] <-> words = [].
Proof.
  split; [| now intros ->].
  intros Hnil. destruct words as [| w words]; [reflexivity |].
  exfalso.
  pose proof (sorted_by_weight_reverse_perm (group_by_lemma (w :: words)))
    as Hperm.
  rewrite <- lemmatize_and_sum_sorted_groups, Hnil in Hperm.
  apply Permutation_nil in Hperm.
  destruct (group_by_lemma_facts (w :: words)) as (_ & Hkeys & _).
  rewrite Hperm in Hkeys. discriminate Hkeys.
Qed.

(** X20: the three stages behind the lookup, run in a row on records
    whose counts are numbers of the arithmetic (for Python, floats, or
    integers within the range of floats).  When no record is accepted
    (in particular after a failed lookup, which hands over the empty
    list) they return the empty list.  They raise [ZeroDivisionError]
    exactly when some record is accepted and the summed weights of the
    aggregator add up to a total that compares equal to [0].  When they
    return, the texts of the result are those of the aggregator's
    output, in its order. *)
Theorem rank_responses_outcomes (W : Type) (N : Number W) (L : Lexicon)
    (response_list : list (phrase W)) (position : string) (n : Z) :
  let responses := collect_responses response_list position n in
  let answer := lemmatize_and_sum responses in
  (responses = [] -> rank_responses response_list position n = Ok [])
  /\ (rank_responses response_list position n = Raise ZeroDivisionError
      <-> responses <> [] /\ w_eqb (total_weight answer) w_zero = true)
  /\ (forall scores : list (string * W),
         rank_responses response_list position n = Ok scores ->
         map fst scores = map fst answer).
Proof.
  intros responses answer. unfold rank_responses. fold responses. fold answer.
  split; [| split].
  - intros Hnil. subst answer. rewrite Hnil. reflexivity.
  - rewrite <- (lemmatize_and_sum_nil_iff W N L responses). fold answer.
    destruct (score_generator_cases W N answer)
      as [[Hnil Hres] | [(Hne & Hz & Hres) | (Hne & Hz & Hres)]];
      rewrite Hres; split; try congruence; try tauto.
    intros [_ Hz']. congruence.
  - intros scores Hscores.
    destruct (score_generator_cases W N answer)
      as [[Hnil Hres] | [(Hne & Hz & Hres) | (Hne & Hz & Hres)]];
      rewrite Hres in Hscores; try discriminate.
    + injection Hscores as <-. now rewrite Hnil.
    + injection Hscores as <-. rewrite map_map. reflexivity.
Qed.

Lemma rank_responses_outcomes_witness :
  let response_list :=
    [{| tks := [tok "quick"; tok "fox"]; sc := 0.5%float; mc := 0%float |}] in
  let responses :=
    @collect_responses float float_Number demo_lexicon response_list "after" 1 in
  let answer := @lemmatize_and_sum float float_Number demo_lexicon responses in
  (responses = [("fox", 0%float)] /\ answer = [("fox", 0%float)])
  /\ (responses = [] ->
      @rank_responses float float_Number demo_lexicon response_list "after" 1
      = Ok [])
  /\ (@rank_responses float float_Number demo_lexicon response_list "after" 1
      = Raise ZeroDivisionError
      <-> responses <> [] /\ w_eqb (total_weight answer) w_zero = true)
  /\ (forall scores : list (string * float),
         @rank_responses float float_Number demo_lexicon response_list
           "after" 1 = Ok scores ->
         map fst scores = map fst answer).
Proof.
  cbv zeta. split; [split; vm_compute; reflexivity |].
  apply (rank_responses_outcomes float float_Number demo_lexicon).
Defined.

(** A run on floats: a phrase whose match count is [0.0] passes the
    cleaner and makes the scorer divide by zero. *)
Example rank_responses_zero_count :
  @rank_responses float float_Number demo_lexicon
    [{| tks := [tok "quick"; tok "fox"]; sc := 0.5%float; mc := 0%float |}]
    "after" 1
  = Raise ZeroDivisionError.
Proof. vm_compute. reflexivity. Qed.

(** The end-to-end example: one phrase [quick brown fox] with score [0.5]
    and count [10], position [after]. *)
Example rank_responses_brown_fox :
  @rank_responses float float_Number demo_lexicon [demo_record] "after" 2
  = Ok [("brown fox", 100%float)].
Proof. vm_compute. reflexivity. Qed.

(** ** Presentation *)

(** X21: the report.  [present] writes one chunk to the console, the
    lines of the report joined by newlines and closed by one, reads
    nothing, and returns the annotated list.  The line of a pair is two
    spaces, the text, a space, the percentage with two decimals and a
    percent sign, followed by [ STOPWORD] when the text is in the
    stopword list and by nothing otherwise. *)
Theorem present_marks_stopwords (W : Type) (L : Lexicon) (F : Formatter W)
    (score : list (string * W)) (c : console) :
  exists mark : string -> string,
    (forall text : string,
        In text stopwords_english -> mark text = " STOPWORD")
    /\ (forall text : string,
           ~ In text stopwords_english -> mark text = EmptyString)
    /\ fst (present score c) = add_stopword_result score
    /\ stdin (snd (present score c)) = stdin c
    /\ stdout (snd (present score c))
       = (stdout c
          ++ [(join newline
                 (map (fun w => "  " ++ fst w ++ " " ++ format_2f (snd w)
                                ++ "%" ++ mark (fst w)) score)
               ++ newline)%string])%list.
Proof.
  exists (fun text =>
            if negb (is_not_stopword text) then " STOPWORD" else EmptyString).
  split; [| split; [| split; [| split]]].
  - intros text Hin. apply is_not_stopword_false in Hin. now rewrite Hin.
  - intros text Hnot. destruct (is_not_stopword text) eqn:Hflag; [reflexivity |].
    apply is_not_stopword_false in Hflag. contradiction.
  - reflexivity.
  - reflexivity.
  - cbn [present snd print stdout]. unfold add_stopword_result.
    rewrite map_map. reflexivity.
Qed.

Lemma present_marks_stopwords_witness :
  let c := {| stdin := ["left"]; stdout := ["Please input word: "] |} in
  let report :=
    @present float demo_lexicon float_Formatter
      [("fox", 75%float); ("the", 25%float)] c in
  fst report
  = [("fox", 75%float, true); ("the", 25%float, false)]
  /\ stdin (snd report) = ["left"]
  /\ stdout (snd report)
     = ["Please input word: ";
        "  fox 75.00%" ++ newline ++ "  the 25.00% STOPWORD" ++ newline].
Proof.
  cbv zeta.
  destruct (present_marks_stopwords float demo_lexicon float_Formatter
              [("fox", 75%float); ("the", 25%float)]
              {| stdin := ["left"]; stdout := ["Please input word: "] |})
    as (mark & Hstop & Hplain & Hlist & Hin & Hout).
  split; [rewrite Hlist; vm_compute; reflexivity |].
  split; [exact Hin |].
  rewrite Hout. cbn [map fst snd stdout].
  rewrite (Hstop "the") by (cbn; tauto).
  rewrite (Hplain "fox") by (cbn; intuition discriminate).
  vm_compute. reflexivity.
Defined.

(** ** Console *)

Lemma lower_single (c : ascii) :
  (String (lower_char c) EmptyString = "b" <-> c = "b"%char \/ c = "B"%char)
  /\ (String (lower_char c) EmptyString = "a" <-> c = "a"%char \/ c = "A"%char).
Proof.
  destruct c as [[] [] [] [] [] [] [] []]; cbv [lower_char in_range];
    cbn;
    (split;
     (split;
      [ intros Heq; try discriminate Heq; auto
      | intros [Heq | Heq]; try discriminate Heq; reflexivity ])).
Qed.

Lemma lower_letter (line : string) :
  (lower line = "b" <-> line = "b" \/ line = "B")
  /\ (lower line = "a" <-> line = "a" \/ line = "A").
Proof.
  destruct line as [| c [| c' rest]]; cbn [lower].
  - split; split; [discriminate | intros [H | H]; discriminate H
                  | discriminate | intros [H | H]; discriminate H].
  - destruct (lower_single c) as [Hb Ha]. split.
    + rewrite Hb. split.
      * intros [-> | ->]; auto.
      * intros [Heq | Heq]; injection Heq as ->; auto.
    + rewrite Ha. split.
      * intros [-> | ->]; auto.
      * intros [Heq | Heq]; injection Heq as ->; auto.
  - split; split; [discriminate | intros [H | H]; discriminate H
                  | discriminate | intros [H | H]; discriminate H].
Qed.

(** What the rounds on the lines [invalid] write. *)
Lemma before_or_after_loop_invalid (invalid lines out : list string) :
  Forall (fun line => lower line <> "b" /\ lower line <> "a") invalid ->
  before_or_after_loop (invalid ++ lines) out
  = before_or_after_loop lines
      (out ++ flat_map (fun _ => [position_prompt; invalid_message ++ newline])
                       invalid).
Proof.
  intros Hinv. revert out.
  induction Hinv as [| line invalid [Hb Ha] _ IH]; intros out.
  - cbn [app flat_map]. now rewrite app_nil_r.
  - cbn [app before_or_after_loop flat_map].
    apply String.eqb_neq in Hb, Ha. rewrite Hb, Ha, IH.
    f_equal. now rewrite <- !app_assoc.
Qed.

(** X22: after any number of lines that are not accepted, the first
    accepted line decides.  Every rejected line costs one prompt and one
    line of complaint, the accepted line one prompt; exactly these lines
    are consumed and the rest of the input is left for the next
    question. *)
Theorem before_or_after_reprompts (invalid : list string) (valid : string)
    (rest out : list string) :
  Forall (fun line => lower line <> "b" /\ lower line <> "a") invalid ->
  lower valid = "b" \/ lower valid = "a" ->
  before_or_after {| stdin := invalid ++ valid :: rest; stdout := out |}
  = (Got (if String.eqb (lower valid) "b" then "before" else "after"),
     {| stdin := rest;
        stdout :=
          out
          ++ flat_map (fun _ => [position_prompt; invalid_message ++ newline])
                      invalid
          ++ [position_prompt] |}).
Proof.
  intros Hinv Hvalid. unfold before_or_after. cbn [stdin stdout].
  rewrite before_or_after_loop_invalid by exact Hinv.
  cbn [before_or_after_loop].
  destruct Hvalid as [Hv | Hv]; rewrite Hv; cbn [String.eqb Ascii.eqb Bool.eqb];
    now rewrite <- app_assoc.
Qed.

Lemma before_or_after_reprompts_witness :
  before_or_after {| stdin := ["x"] ++ "b" :: ["2"]; stdout := [] |}
  = (Got (if String.eqb (lower "b") "b" then "before" else "after"),
     {| stdin := ["2"];
        stdout :=
          []
          ++ flat_map (fun _ => [position_prompt; invalid_message ++ newline])
                      ["x"]
          ++ [position_prompt] |}).
Proof.
  apply before_or_after_reprompts.
  - repeat constructor; discriminate.
  - left. reflexivity.
Defined.

(** X23: the loop has no bound of its own: when no line of the input is
    accepted, every line is consumed, each answered by a complaint, and
    the call ends in [EOFError] after one more prompt. *)
Theorem before_or_after_exhausts_input (lines out : list string) :
  Forall (fun line => lower line <> "b" /\ lower line <> "a") lines ->
  before_or_after {| stdin := lines; stdout := out |}
  = (Failed EOFError,
     {| stdin := [];
        stdout :=
          out
          ++ flat_map (fun _ => [position_prompt; invalid_message ++ newline])
                      lines
          ++ [position_prompt] |}).
Proof.
  intros Hinv. unfold before_or_after. cbn [stdin stdout].
  rewrite <- (app_nil_r lines) at 1.
  rewrite before_or_after_loop_invalid by exact Hinv.
  cbn [before_or_after_loop]. now rewrite <- app_assoc.
Qed.

Lemma before_or_after_exhausts_input_witness :
  before_or_after {| stdin := ["before"; " b"]; stdout := [] |}
  = (Failed EOFError,
     {| stdin := [];
        stdout :=
          []
          ++ flat_map (fun _ => [position_prompt; invalid_message ++ newline])
                      ["before"; " b"]
          ++ [position_prompt] |}).
Proof.
  apply before_or_after_exhausts_input.
  repeat constructor; discriminate.
Defined.

(** X24: a line is accepted exactly when it is one of the four
    one-character lines [b], [B], [a], [A]; nothing is stripped, so a
    padded or spelled-out answer is rejected. *)
Theorem before_or_after_accepts (line : string) (out : list string) :
  (fst (before_or_after {| stdin := [line]; stdout := out |}) = Got "before"
   <-> line = "b" \/ line = "B")
  /\ (fst (before_or_after {| stdin := [line]; stdout := out |}) = Got "after"
      <-> line = "a" \/ line = "A").
Proof.
  destruct (lower_letter line) as [Hb Ha].
  rewrite <- Hb, <- Ha.
  unfold before_or_after. cbn [stdin stdout before_or_after_loop].
  destruct (String.eqb (lower line) "b") eqn:Eb.
  - apply String.eqb_eq in Eb. rewrite Eb. cbn [fst].
    split; split; try tauto; discriminate.
  - destruct (String.eqb (lower line) "a") eqn:Ea.
    + apply String.eqb_eq in Ea. rewrite Ea. cbn [fst].
      split; split; try tauto; discriminate.
    + apply String.eqb_neq in Eb, Ea. cbn [fst].
      split; split; try tauto; discriminate.
Qed.

Lemma before_or_after_loop_result (lines out : list string) (p : string)
    (c' : console) :
  before_or_after_loop lines out = (Got p, c') ->
  (p = "before" \/ p = "after")
  /\ exists consumed : list string,
       consumed <> [] /\ lines = (consumed ++ stdin c')%list.
Proof.
  revert out. induction lines as [| line lines IH]; intros out;
    cbn [before_or_after_loop].
  - discriminate.
  - destruct (String.eqb (lower line) "b").
    + intros [= <- <-]. split; [now left |].
      exists [line]. split; [discriminate | reflexivity].
    + destruct (String.eqb (lower line) "a").
      * intros [= <- <-]. split; [now right |].
        exists [line]. split; [discriminate | reflexivity].
      * intros Hloop. apply IH in Hloop.
        destruct Hloop as (Hp & consumed & _ & ->).
        split; [exact Hp |].
        exists (line :: consumed). split; [discriminate | reflexivity].
Qed.

(** X25: when [before_or_after] returns, it returns [before] or [after]
    and nothing else, and it has consumed at least one line.  The
    position that the interactive run hands to the query builder and to
    the cleaner is therefore one both read alike. *)
Theorem before_or_after_result (c c' : console) (p : string) :
  before_or_after c = (Got p, c') ->
  (p = "before" \/ p = "after")
  /\ (exists consumed : list string,
         consumed <> [] /\ stdin c = (consumed ++ stdin c')%list)
  /\ forall (W : Type) (r : phrase W) (word : string) (n : Z),
       (String.eqb p "before" = true
        /\ search_pattern word p n = str_mul n "?" ++ " " ++ word
        /\ answer_words r p n
           = py_slice (tks r) (Some (-1 - n)) (Some (-1)))
       \/ (String.eqb p "after" = true
           /\ search_pattern word p n = word ++ " " ++ str_mul n "?"
           /\ answer_words r p n = py_slice (tks r) (Some 1) None).
Proof.
  intros Hrun. unfold before_or_after in Hrun.
  apply before_or_after_loop_result in Hrun.
  destruct Hrun as (Hp & Hconsumed).
  split; [exact Hp |]. split; [exact Hconsumed |].
  intros W r word n. destruct Hp as [-> | ->]; [left | right];
    repeat split; reflexivity.
Qed.

Lemma before_or_after_result_witness :
  ("after" = "before" \/ "after" = "after")
  /\ (exists consumed : list string,
         consumed <> []
         /\ stdin {| stdin := ["?"; "A"; "3"]; stdout := [] |}
            = (consumed
               ++ stdin {| stdin := ["3"];
                           stdout := [position_prompt;
                                      (invalid_message ++ newline)%string;
                                      position_prompt] |})%list)
  /\ forall (W : Type) (r : phrase W) (word : string) (n : Z),
       (String.eqb "after" "before" = true
        /\ search_pattern word "after" n = str_mul n "?" ++ " " ++ word
        /\ answer_words r "after" n
           = py_slice (tks r) (Some (-1 - n)) (Some (-1)))
       \/ (String.eqb "after" "after" = true
           /\ search_pattern word "after" n = word ++ " " ++ str_mul n "?"
           /\ answer_words r "after" n = py_slice (tks r) (Some 1) None).
Proof.
  apply (before_or_after_result
           {| stdin := ["?"; "A"; "3"]; stdout := [] |}
           {| stdin := ["3"];
              stdout := [position_prompt; invalid_message ++ newline;
                         position_prompt] |} "after").
  reflexivity.
Defined.

(** X26: the three questions of the interactive run.  The first line is
    taken as the anchor word as it is, the position is asked until a line
    is accepted, and the next line is the count: if [int] accepts it the
    three answers are returned and exactly these lines are consumed; if
    not, the run ends in [ValueError] (nothing handles it) after the
    position has been read. *)
Theorem run_module_inputs_reads (B : Builtins) (word : string)
    (invalid : list string) (valid count : string) (rest out : list string) :
  Forall (fun line => lower line <> "b" /\ lower line <> "a") invalid ->
  lower valid = "b" \/ lower valid = "a" ->
  run_module_inputs
    {| stdin := word :: invalid ++ valid :: count :: rest; stdout := out |}
  = (match int_of_str count with
     | Some n =>
         Got (word, if String.eqb (lower valid) "b" then "before" else "after",
              n)
     | None => Failed ValueError
     end,
     {| stdin := rest;
        stdout :=
          (out ++ [word_prompt])
          ++ flat_map (fun _ => [position_prompt; invalid_message ++ newline])
                      invalid
          ++ [position_prompt] ++ [count_prompt] |}).
Proof.
  intros Hinv Hvalid.
  unfold run_module_inputs, input, before_or_after. cbn [stdin stdout].
  rewrite before_or_after_loop_invalid by exact Hinv.
  cbn [before_or_after_loop].
  assert (Hout : forall l1 l2 : list string,
             (((l1 ++ l2) ++ [position_prompt]) ++ [count_prompt]
              = l1 ++ l2 ++ [position_prompt] ++ [count_prompt])%list)
    by (intros; now rewrite <- !app_assoc).
  destruct Hvalid as [Hv | Hv]; rewrite Hv; cbn [String.eqb Ascii.eqb Bool.eqb];
    unfold how_many_more_words; cbn [stdin stdout];
    destruct (int_of_str count); now rewrite Hout.
Qed.

Lemma run_module_inputs_reads_witness :
  @run_module_inputs decimal_builtins
    {| stdin := "cat" :: ["x"] ++ "B" :: "2" :: []; stdout := [] |}
  = (match @int_of_str decimal_builtins "2" with
     | Some n =>
         Got ("cat", if String.eqb (lower "B") "b" then "before" else "after",
              n)
     | None => Failed ValueError
     end,
     {| stdin := [];
        stdout :=
          ([] ++ [word_prompt])
          ++ flat_map (fun _ => [position_prompt; invalid_message ++ newline])
                      ["x"]
          ++ [position_prompt] ++ [count_prompt] |}).
Proof.
  apply (run_module_inputs_reads decimal_builtins).
  - repeat constructor; discriminate.
  - left. reflexivity.
Defined.

(** The example of the specification: [x], then [b], then the count. *)
Example run_module_inputs_example :
  @run_module_inputs decimal_builtins
    {| stdin := ["cat"; "x"; "b"; "2"]; stdout := [] |}
  = (Got ("cat", "before", 2),
     {| stdin := [];
        stdout := [word_prompt; position_prompt; invalid_message ++ newline;
                   position_prompt; count_prompt] |}).
Proof. vm_compute. reflexivity. Qed.

(** X27: with position [after] the wildcard count plays no part in the
    cleaning: every token behind the first is taken and checked, however
    many wildcards were asked for. *)
Theorem collect_responses_after_ignores_count (W : Type) (N : Number W)
    (L : Lexicon) (response_list : list (phrase W)) (n m : Z) :
  collect_responses response_list "after" n
  = collect_responses response_list "after" m
  /\ forall r : phrase W,
       In r response_list -> answer_words r "after" n = skipn 1 (tks r).
Proof.
  split.
  - rewrite !collect_responses_flat_map. apply flat_map_ext. intros r.
    reflexivity.
  - intros r _. unfold answer_words. cbn [String.eqb Ascii.eqb Bool.eqb].
    apply py_slice_from_one.
Qed.
